(** * Electoral-roll extractor: transliteration engine and OCR block parser

    A shallow embedding of [extract_voters.py]: the Malayalam-to-Latin
    transliterator ([transliterate_to_english], [transliterate_word]) and
    the OCR text parser ([parse_ocr_text], [parse_voter_block]), with the
    properties of both that the specification states.

    Python [str] values are modelled as lists of Unicode code points. *)

From Stdlib Require Import ZArith List Bool Lia String Ascii.
From stdpp Require Import base list option list_monad.
Import ListNotations.
Local Open Scope Z_scope.

(** ** Strings *)

(** A Python [str]: the sequence of its code points. *)
Abbreviation str := (list Z).

Module Utf8.
(** Literals of this file are written as UTF-8 byte strings, as in the
    source file, and decoded to code points here. *)
Fixpoint bytes (s : string) : list Z :=
  match s with
  | EmptyString => []
  | String a r => Z.of_N (N_of_ascii a) :: bytes r
  end.

Fixpoint decode (bs : list Z) : str :=
  match bs with
  | [] => []
  | b0 :: r0 =>
      if b0 <? 0x80 then b0 :: decode r0
      else match r0 with
      | [] => []
      | b1 :: r1 =>
          if b0 <? 0xE0 then (b0 - 0xC0) * 64 + (b1 - 0x80) :: decode r1
          else match r1 with
          | [] => []
          | b2 :: r2 =>
              if b0 <? 0xF0
              then (b0 - 0xE0) * 4096 + (b1 - 0x80) * 64 + (b2 - 0x80) :: decode r2
              else match r2 with
              | [] => []
              | b3 :: r3 =>
                  (b0 - 0xF0) * 262144 + (b1 - 0x80) * 4096
                  + (b2 - 0x80) * 64 + (b3 - 0x80) :: decode r3
              end
          end
      end
  end.
End Utf8.

(** [u "..."] is the Python string with that literal. *)
Definition u (s : string) : str := Utf8.decode (Utf8.bytes s).

(** [cp "x"] is the code point of a one-character literal. *)
Definition cp (s : string) : Z := hd 0 (u s).

Definition ZWJ : Z := 0x200D.
Definition ZWNJ : Z := 0x200C.
Definition VIRAMA : Z := 0x0D4D.

Definition str_eqb (a b : str) : bool := bool_decide (a = b).

(** [c.isascii()] *)
Definition isascii (x : Z) : bool := (0 <=? x) && (x <? 128).

(** [c.isspace()], and the class [\s] of [re] on [str] patterns. *)
Definition isspace (x : Z) : bool :=
  ((0x09 <=? x) && (x <=? 0x0D)) || ((0x1C <=? x) && (x <=? 0x20))
  || (x =? 0x85) || (x =? 0xA0) || (x =? 0x1680)
  || ((0x2000 <=? x) && (x <=? 0x200A))
  || (x =? 0x2028) || (x =? 0x2029) || (x =? 0x202F) || (x =? 0x205F)
  || (x =? 0x3000).

(** [x in chars] for a string [chars] used as a set of characters. *)
Definition char_in (x : Z) (chars : str) : bool := existsb (Z.eqb x) chars.

Fixpoint lstrip_by (p : Z -> bool) (s : str) : str :=
  match s with
  | [] => []
  | x :: r => if p x then lstrip_by p r else s
  end.

Definition rstrip_by (p : Z -> bool) (s : str) : str :=
  rev (lstrip_by p (rev s)).

(** [s.strip()] *)
Definition strip (s : str) : str := rstrip_by isspace (lstrip_by isspace s).

(** [s.rstrip(chars)] *)
Definition rstrip (chars : str) (s : str) : str :=
  rstrip_by (fun x => char_in x chars) s.

(** [s.replace(ch, '')] for a one-character [ch]. *)
Definition remove_char (ch : Z) (s : str) : str :=
  List.filter (fun x => negb (x =? ch)) s.

(** [s.split()]: the maximal runs of non-whitespace characters. [cur] is
    the run being read, last character first. *)
Fixpoint split_ws_from (cur : str) (s : str) : list str :=
  match s with
  | [] => match cur with [] => [] | _ => [rev cur] end
  | x :: r =>
      if isspace x
      then match cur with
           | [] => split_ws_from [] r
           | _ => rev cur :: split_ws_from [] r
           end
      else split_ws_from (x :: cur) r
  end.

Definition split_ws (s : str) : list str := split_ws_from [] s.

(** [sep.join(parts)] *)
Fixpoint join (sep : str) (parts : list str) : str :=
  match parts with
  | [] => []
  | [p] => p
  | p :: ps => p ++ sep ++ join sep ps
  end.

Definition is_upper (x : Z) : bool := (0x41 <=? x) && (x <=? 0x5A).
Definition is_lower (x : Z) : bool := (0x61 <=? x) && (x <=? 0x7A).
Definition to_upper (x : Z) : Z := if is_lower x then x - 32 else x.
Definition to_lower (x : Z) : Z := if is_upper x then x + 32 else x.

(** [s.title()] on ASCII text: a letter is upper-cased when the character
    before it is not a letter and lower-cased otherwise. The strings this
    is applied to hold ASCII only ([tw_chars_ascii] below); code points
    outside ASCII are left as they are here. *)
Fixpoint title_from (previous_is_cased : bool) (s : str) : str :=
  match s with
  | [] => []
  | x :: r =>
      if is_upper x || is_lower x
      then (if previous_is_cased then to_lower x else to_upper x)
           :: title_from true r
      else x :: title_from false r
  end.

Definition title (s : str) : str := title_from false s.

(** [s.upper()] and [s.lower()] on strings whose cased characters are
    ASCII letters, as the identifiers matched by [[A-Za-z]{2,3}\d{6,10}]
    are; other code points are left as they are here. *)
Definition upper (s : str) : str := map to_upper s.
Definition lower (s : str) : str := map to_lower s.

(** [s] does not begin with a character satisfying [p]. *)
Definition no_lead (p : Z -> bool) (s : str) : Prop :=
  match s with
  | [] => True
  | x :: _ => p x = false
  end.

(** No leading and no trailing whitespace. *)
Definition trimmed (s : str) : Prop :=
  no_lead isspace s /\ no_lead isspace (rev s).

(** ** Dictionaries

    The tables are dict literals; they keep the order of the source, which
    is the order [KNOWN_NAMES.items()] iterates in. A lookup takes the
    first entry of a key; only [SPECIALS] repeats keys (the two joiners),
    each time with the same value. *)

Fixpoint dict_get {K} (eqb : K -> K -> bool) (d : list (K * str)) (k : K)
  : option str :=
  match d with
  | [] => None
  | (k', v) :: r => if eqb k k' then Some v else dict_get eqb r k
  end.

(** [d[k]] and [k in d] for a table keyed by one character. *)
Definition cget (d : list (Z * str)) (k : Z) : option str := dict_get Z.eqb d k.
Definition cmem (d : list (Z * str)) (k : Z) : bool :=
  match cget d k with Some _ => true | None => false end.

(** [d[k]] and [k in d] for a table keyed by a string. *)
Definition sget (d : list (str * str)) (k : str) : option str :=
  dict_get str_eqb d k.

(** ** Transliteration tables *)

Definition CONJUNCTS : list (str * str) :=
  [
    (u "ക്ക", u "kka"); (u "ക്ഷ", u "ksha"); (u "ക്ത", u "ktha");
    (u "ങ്ക", u "nka"); (u "ങ്ങ", u "nga"); (u "ച്ച", u "ccha");
    (u "ഞ്ച", u "ncha"); (u "ഞ്ഞ", u "nja"); (u "ട്ട", u "tta");
    (u "ണ്ട", u "nda"); (u "ണ്ണ", u "nna"); (u "ത്ത", u "ttha");
    (u "ന്ത", u "ntha"); (u "ന്ന", u "nna"); (u "ന്ദ", u "nda");
    (u "ന്ധ", u "ndha"); (u "ന്റ", u "nra"); (u "പ്പ", u "ppa");
    (u "മ്പ", u "mba"); (u "മ്മ", u "mma"); (u "യ്യ", u "yya");
    (u "ല്ല", u "lla"); (u "ള്ള", u "lla"); (u "വ്വ", u "vva");
    (u "ശ്ശ", u "shsha"); (u "സ്സ", u "ssa"); (u "റ്റ", u "tta");
    (u "ഷ്ട", u "shta"); (u "ഷ്ണ", u "shna"); (u "സ്ക", u "ska");
    (u "സ്ത", u "stha"); (u "സ്ഥ", u "stha"); (u "സ്മ", u "sma");
    (u "സ്ന", u "sna"); (u "സ്പ", u "spa"); (u "സ്ഫ", u "spha");
    (u "സ്ര", u "sra"); (u "ദ്ദ", u "dda"); (u "ദ്ധ", u "ddha");
    (u "ദ്ര", u "dra"); (u "ബ്ബ", u "bba"); (u "ബ്ദ", u "bda");
    (u "ബ്ധ", u "bdha"); (u "ബ്ര", u "bra"); (u "ജ്ജ", u "jja");
    (u "ജ്ഞ", u "gna"); (u "ഗ്ഗ", u "gga"); (u "ഗ്ന", u "gna");
    (u "ഗ്മ", u "gma"); (u "ഗ്ര", u "gra"); (u "ക്ര", u "kra");
    (u "ക്ല", u "kla"); (u "പ്ര", u "pra"); (u "പ്ല", u "pla");
    (u "ത്ര", u "thra"); (u "ത്മ", u "thma"); (u "ഫ്ര", u "phra");
    (u "ശ്ര", u "shra"); (u "ന്ദ്ര", u "ndra")
  ].

Definition CONSONANTS : list (Z * str) :=
  [
    (cp "ക", u "k"); (cp "ഖ", u "kh"); (cp "ഗ", u "g"); (cp "ഘ", u "gh"); (cp "ങ", u "ng");
    (cp "ച", u "ch"); (cp "ഛ", u "chh"); (cp "ജ", u "j"); (cp "ഝ", u "jh"); (cp "ഞ", u "nj");
    (cp "ട", u "t"); (cp "ഠ", u "th"); (cp "ഡ", u "d"); (cp "ഢ", u "dh"); (cp "ണ", u "n");
    (cp "ത", u "th"); (cp "ഥ", u "thh"); (cp "ദ", u "d"); (cp "ധ", u "dh"); (cp "ന", u "n");
    (cp "പ", u "p"); (cp "ഫ", u "ph"); (cp "ബ", u "b"); (cp "ഭ", u "bh"); (cp "മ", u "m");
    (cp "യ", u "y"); (cp "ര", u "r"); (cp "ല", u "l"); (cp "വ", u "v"); (cp "ശ", u "sh");
    (cp "ഷ", u "sh"); (cp "സ", u "s"); (cp "ഹ", u "h"); (cp "ള", u "l"); (cp "ഴ", u "zh");
    (cp "റ", u "r")
  ].

Definition VOWELS : list (Z * str) :=
  [
    (cp "അ", u "a"); (cp "ആ", u "aa"); (cp "ഇ", u "i"); (cp "ഈ", u "ee"); (cp "ഉ", u "u"); (cp "ഊ", u "oo");
    (cp "ഋ", u "ri"); (cp "എ", u "e"); (cp "ഏ", u "e"); (cp "ഐ", u "ai"); (cp "ഒ", u "o"); (cp "ഓ", u "o");
    (cp "ഔ", u "au")
  ].

Definition MATRAS : list (Z * str) :=
  [
    (cp "ാ", u "a"); (cp "ി", u "i"); (cp "ീ", u "ee"); (cp "ു", u "u"); (cp "ൂ", u "oo");
    (cp "ൃ", u "ri"); (cp "െ", u "e"); (cp "േ", u "e"); (cp "ൈ", u "ai"); (cp "ൊ", u "o");
    (cp "ോ", u "o"); (cp "ൌ", u "au"); (cp "ൗ", u "au")
  ].

Definition SPECIALS : list (Z * str) :=
  [
    (cp "ം", u "m"); (cp "ഃ", u "h"); (cp "്", u ""); (cp "ൻ", u "n");
    (cp "ൽ", u "l"); (cp "ൾ", u "l"); (cp "ർ", u "r"); (cp "ൺ", u "n");
    (cp "ൿ", u "k"); (ZWJ, u ""); (ZWNJ, u ""); (ZWJ, u "");
    (ZWNJ, u "")
  ].

Definition KNOWN_NAMES : list (str * str) :=
  [
    (u "അബ്ദുള്ള", u "Abdulla"); (u "അബ്ദുല്" ++ [ZWJ], u "Abdul");
    (u "മുഹമ്മദ്", u "Muhammed"); (u "മുഹമ്മദ്" ++ [ZWNJ], u "Muhammed");
    (u "മുഹമ്മെദ്", u "Muhammed"); (u "ഫാത്തിമ", u "Fathima");
    (u "ആയിശ", u "Ayisha"); (u "ഹസൻ", u "Hasan");
    (u "ഹുസൈൻ", u "Hussain"); (u "ഇബ്രാഹിം", u "Ibrahim");
    (u "കരീം", u "Kareem"); (u "അഹമ്മദ്", u "Ahmed");
    (u "അഹമ്മദ്" ++ [ZWNJ], u "Ahmed"); (u "അഹമ്മെദ്", u "Ahmed");
    (u "റഹ്മാൻ", u "Rahman"); (u "റഹിമാൻ", u "Rahman");
    (u "റഹിമാന്" ++ [ZWJ], u "Rahman"); (u "നാസർ", u "Naser");
    (u "നാസര്" ++ [ZWJ], u "Naser"); (u "ബീരാൻ", u "Beeran");
    (u "ബീരാന്" ++ [ZWJ], u "Beeran"); (u "ഉമ്മർ", u "Ummar");
    (u "ഉമ്മര്" ++ [ZWJ], u "Ummar"); (u "മൊയ്തീൻ", u "Moitheen");
    (u "മൊയ്തീന്" ++ [ZWJ], u "Moitheen"); (u "അലി", u "Ali");
    (u "ഹസീന", u "Haseena"); (u "ഹസീനാ", u "Haseena");
    (u "ആമിന", u "Amina"); (u "സൈനബ", u "Sainaba");
    (u "ഖദീജ", u "Khadija"); (u "നൂറുന്നീസ", u "Noornisa");
    (u "രാജേഷ്", u "Rajesh"); (u "രാജേഷ്" ++ [ZWNJ], u "Rajesh");
    (u "ലക്ഷ്മി", u "Lakshmi"); (u "ജയലക്ഷ്മി", u "Jayalakshmi");
    (u "ഗോപിനാഥൻ", u "Gopinathan"); (u "ഗോപിനാഥന്" ++ [ZWJ], u "Gopinathan");
    (u "ഗോപാലകൃഷ്ണൻ", u "Gopalakrishnan"); (u "കൃഷ്ണൻ", u "Krishnan");
    (u "ബാലകൃഷ്ണൻ", u "Balakrishnan"); (u "നാരായണൻ", u "Narayanan");
    (u "ശങ്കരൻ", u "Shankaran"); (u "വിജയൻ", u "Vijayan");
    (u "ദിനേശൻ", u "Dineshan"); (u "സുരേഷ്", u "Suresh");
    (u "മനോജ്", u "Manoj"); (u "പ്രദീപ്", u "Pradeep");
    (u "അനിത", u "Anitha"); (u "ശാന്ത", u "Shantha");
    (u "കമല", u "Kamala"); (u "ഗീത", u "Geetha");
    (u "ശ്രീദേവി", u "Sreedevi"); (u "സഫിയ", u "Safiya");
    (u "കുമാർ", u "Kumar"); (u "കുമാര്" ++ [ZWJ], u "Kumar");
    (u "കുമാരി", u "Kumari"); (u "നായർ", u "Nair");
    (u "നായര്" ++ [ZWJ], u "Nair"); (u "മേനോൻ", u "Menon");
    (u "മേനോന്" ++ [ZWJ], u "Menon"); (u "പിള്ള", u "Pilla");
    (u "പണിക്കർ", u "Panikkar"); (u "ജോസ്", u "Jose");
    (u "ജോസ്" ++ [ZWNJ], u "Jose"); (u "ജോർജ്", u "George");
    (u "തോമസ്", u "Thomas"); (u "മാത്യു", u "Mathew");
    (u "ചന്ദ്രൻ", u "Chandran"); (u "രമേശ്", u "Ramesh");
    (u "ബഷീർ", u "Basheer"); (u "ബഷിര്" ++ [ZWJ], u "Basheer");
    (u "ഷാജി", u "Shaji"); (u "സജി", u "Saji");
    (u "വിനോദ്", u "Vinod"); (u "അനീസ്", u "Anees");
    (u "സന്തോഷ്", u "Santhosh"); (u "ഗണേഷ്", u "Ganesh");
    (u "ഗണേഷ്" ++ [ZWNJ], u "Ganesh"); (u "ഗണേശ്", u "Ganesh");
    (u "ബാബു", u "Babu"); (u "മോഹൻ", u "Mohan");
    (u "മോഹന്" ++ [ZWJ], u "Mohan"); (u "ദേവി", u "Devi");
    (u "ബീവി", u "Beevi"); (u "ഷിഹാബ്", u "Shihab");
    (u "ഷിഹാബ്" ++ [ZWNJ], u "Shihab"); (u "അസ്മ", u "Asma");
    (u "ആഷിറ", u "Ashira"); (u "ശോഭി", u "Shobhi");
    (u "എൽസ", u "Elsa"); (u "എല്" ++ [ZWJ] ++ u "സ", u "Elsa");
    (u "എല്" ++ [ZWJ] ++ u "സാ", u "Elsa"); (u "ആശ", u "Asha");
    (u "നസീർ", u "Naseer"); (u "നസീര്" ++ [ZWJ], u "Naseer");
    (u "മൻസൂർ", u "Mansoor"); (u "മന്" ++ [ZWJ] ++ u "സൂര്" ++ [ZWJ], u "Mansoor");
    (u "ശംസുദ്ദീൻ", u "Shamsudeen"); (u "ശംസുദ്ധീന്" ++ [ZWJ], u "Shamsudeen");
    (u "അബൂബക്കർ", u "Abubakar"); (u "അബൂബക്കര്" ++ [ZWJ], u "Abubakar");
    (u "അബ്ദുറഹീം", u "Abdurraheem"); (u "സത്യൻ", u "Sathyan");
    (u "സത്യന്" ++ [ZWJ], u "Sathyan"); (u "നബീൽ", u "Nabeel");
    (u "നബില്" ++ [ZWJ], u "Nabeel"); (u "ഹാജറ", u "Hajara");
    (u "ജോബിൻ", u "Jobin"); (u "ജോബിന്" ++ [ZWJ], u "Jobin");
    (u "പ്രദീഷ്", u "Pradeesh"); (u "മഞ്ജുള", u "Manjula");
    (u "മുജീബ്", u "Mujeeb"); (u "മുജീബ്" ++ [ZWNJ], u "Mujeeb");
    (u "ഷൂഹൈബ്", u "Shuhaib"); (u "ഷൂഹൈബ്" ++ [ZWNJ], u "Shuhaib");
    (u "ശാരിക്", u "Sharik"); (u "ശാരിക്" ++ [ZWNJ], u "Sharik");
    (u "മുഹന്നദ്", u "Muhanned"); (u "മൊസ്തീൻ", u "Mostheen");
    (u "മൊസ്തീന്" ++ [ZWJ], u "Mostheen"); (u "അഷറഫ്", u "Ashraf");
    (u "അഷറഫ്" ++ [ZWNJ], u "Ashraf"); (u "ഗഫൂർ", u "Ghafoor");
    (u "ഗഫൂര്" ++ [ZWJ], u "Ghafoor"); (u "കുഞ്ഞാലി", u "Kunjali");
    (u "കൂഞ്ഞാലി", u "Kunjali"); (u "നാസിറുദ്ദീൻ", u "Nasirudeen");
    (u "നാസിറുദ്ദീന്" ++ [ZWJ], u "Nasirudeen"); (u "ഉണ്ണിമോയിൻ", u "Unnimoyin");
    (u "ഉണ്ണിമോയിന്" ++ [ZWJ], u "Unnimoyin"); (u "സൈദലവി", u "Saidalavi")
  ].

(** ** The transliterator *)

(** [is_malayalam(char)] *)
Definition is_malayalam (x : Z) : bool := (0x0D00 <=? x) && (x <=? 0x0D7F).

(** Outcome of a table subscript [d[k]]: [None] is Python's [KeyError]. *)
Definition sub (d : list (Z * str)) (k : Z) : str := default [] (cget d k).

Section TransliterateWord.
Variable chars : list Z.
Let n : nat := length chars.

(** [chars[k]], read only under a guard [k < n]. *)
Definition at_ (k : nat) : Z := default 0 (chars !! k).

(** One iteration of the [while i < n] loop of [transliterate_word]:
    the new cursor and the string appended to [result]. *)
Definition tw_step (i : nat) : nat * list str :=
  let x := at_ i in
  if negb (is_malayalam x) && negb (cmem SPECIALS x) then
    (S i, if isascii x then [[x]] else [])
  else if cmem SPECIALS x then (S i, [sub SPECIALS x])
  else if cmem VOWELS x then (S i, [sub VOWELS x])
  else if cmem MATRAS x then (S i, [sub MATRAS x])
  else if cmem CONSONANTS x then
    let conjunct_key := [x; VIRAMA; at_ (i + 2)] in
    if bool_decide (i + 2 < n)%nat && (at_ (i + 1) =? VIRAMA) then
      match sget CONJUNCTS conjunct_key with
      | Some cj =>
          if bool_decide (i + 3 < n)%nat && cmem MATRAS (at_ (i + 3))
          then ((i + 4)%nat, [cj ++ sub MATRAS (at_ (i + 3))])
          else
            ((i + 3)%nat,
             cj :: (if bool_decide (i + 3 < n)%nat
                       && negb (cmem MATRAS (at_ (i + 3)))
                       && negb (at_ (i + 3) =? VIRAMA)
                    then [u "a"] else []))
      | None => ((i + 2)%nat, [sub CONSONANTS x])
      end
    else if bool_decide (i + 1 < n)%nat && cmem MATRAS (at_ (i + 1)) then
      ((i + 2)%nat, [sub CONSONANTS x ++ sub MATRAS (at_ (i + 1))])
    else
      (S i,
       sub CONSONANTS x
       :: (if bool_decide (i + 1 < n)%nat
              && negb (cmem MATRAS (at_ (i + 1)))
              && negb (at_ (i + 1) =? VIRAMA)
           then [u "a"] else []))
  else (S i, []).

(** The loop, with the number of iterations left as fuel; every
    iteration moves the cursor forward, so [n] iterations are enough
    ([tw_loop_fuel]). *)
Fixpoint tw_loop (fuel : nat) (i : nat) (result : list str) : list str :=
  match fuel with
  | O => result
  | S fuel' =>
      if bool_decide (i < n)%nat
      then let '(i', out) := tw_step i in tw_loop fuel' i' (result ++ out)
      else result
  end.
End TransliterateWord.

(** [''.join(result)] at the end of the loop of [transliterate_word]. *)
Definition tw_chars (word : str) : str :=
  concat (tw_loop word (length word) 0 []).

(** [transliterate_word(word)] *)
Definition transliterate_word (word : str) : str :=
  let transliterated := tw_chars word in
  match transliterated with
  | [] => word
  | _ => title transliterated
  end.

(** The test of the [for known_ml, known_en in KNOWN_NAMES.items()] loop. *)
Definition known_match (clean_word known_ml : str) : bool :=
  str_eqb clean_word known_ml
  || str_eqb (rstrip [VIRAMA; ZWNJ; ZWJ] clean_word)
             (rstrip [VIRAMA; ZWNJ; ZWJ] known_ml).

(** The first entry of [KNOWN_NAMES] that matches, if any. *)
Definition known_lookup (clean_word : str) : option str :=
  snd <$> find (fun kv => known_match clean_word (fst kv)) KNOWN_NAMES.

(** The body of [for word in words], giving the words appended to
    [result_words]. *)
Definition translit_one (word : str) : list str :=
  let clean_word := strip word in
  match clean_word with
  | [] => []
  | _ =>
      match known_lookup clean_word with
      | Some known_en => [known_en]
      | None => [transliterate_word clean_word]
      end
  end.

(** [text] after stripping and removing ZWJ/ZWNJ. *)
Definition clean_text (text : str) : str :=
  remove_char ZWNJ (remove_char ZWJ (remove_char ZWNJ (remove_char ZWJ (strip text)))).

(** [transliterate_to_english(text)] *)
Definition transliterate_to_english (text : str) : str :=
  match text, strip text with
  | [], _ | _, [] => []
  | _, _ =>
      let text := clean_text text in
      if forallb (fun x => isascii x || char_in x (u " /-.")) text then text
      else join (u " ") (flat_map translit_one (split_ws text))
  end.


(** [sub in s] for strings. *)
Fixpoint is_prefix_b (p s : str) : bool :=
  match p, s with
  | [], _ => true
  | x :: p', y :: s' => (x =? y) && is_prefix_b p' s'
  | _ :: _, [] => false
  end.

Fixpoint contains (sub s : str) : bool :=
  is_prefix_b sub s
  || match s with
     | [] => false
     | _ :: s' => contains sub s'
     end.

(** [s.split(sep)] for a one-character [sep]; [cur] is the piece being
    read, last character first. *)
Fixpoint split_char_from (sep : Z) (cur : str) (s : str) : list str :=
  match s with
  | [] => [rev cur]
  | x :: r =>
      if x =? sep then rev cur :: split_char_from sep [] r
      else split_char_from sep (x :: cur) r
  end.

Definition split_char (sep : Z) (s : str) : list str := split_char_from sep [] s.

(** [[x.strip() for x in l if x.strip()]] *)
Definition strip_nonempty (l : list str) : list str :=
  List.filter (fun x => negb (str_eqb x [])) (map strip l).

(** ** Decimal digits

    The class [\d] of [re] on [str] patterns and the digits [int()]
    accepts are the code points of Unicode category Nd. They come in runs
    of ten, for the values 0 to 9; [decimal_zeros] lists the first code
    point of each run (Unicode 14.0, the database of CPython 3.11). *)
Definition decimal_zeros : list Z :=
  [ 0x30; 0x660; 0x6F0; 0x7C0; 0x966; 0x9E6; 0xA66; 0xAE6; 0xB66; 0xBE6;
    0xC66; 0xCE6; 0xD66; 0xDE6; 0xE50; 0xED0; 0xF20; 0x1040; 0x1090;
    0x17E0; 0x1810; 0x1946; 0x19D0; 0x1A80; 0x1A90; 0x1B50; 0x1BB0;
    0x1C40; 0x1C50; 0xA620; 0xA8D0; 0xA900; 0xA9D0; 0xA9F0; 0xAA50;
    0xABF0; 0xFF10; 0x104A0; 0x10D30; 0x11066; 0x110F0; 0x11136; 0x111D0;
    0x112F0; 0x11450; 0x114D0; 0x11650; 0x116C0; 0x11730; 0x118E0;
    0x11950; 0x11C50; 0x11D50; 0x11DA0; 0x16A60; 0x16AC0; 0x16B50;
    0x1D7CE; 0x1D7D8; 0x1D7E2; 0x1D7EC; 0x1D7F6; 0x1E140; 0x1E2F0;
    0x1E950; 0x1FBF0 ].

Definition decimal_value (x : Z) : option Z :=
  (fun z => x - z) <$> find (fun z => (z <=? x) && (x <? z + 10)) decimal_zeros.

Definition isdecimal (x : Z) : bool :=
  match decimal_value x with Some _ => true | None => false end.

(** ** Outcomes of fallible code *)

Inductive exn := ValueError | IndexError | TypeError.

(** What running a piece of Python gives: a value, an exception, or, for a
    loop run on fuel, no result within the fuel. *)
Inductive outcome (A : Type) :=
| Ok (a : A)
| Raise (e : exn)
| OutOfFuel.
Arguments Ok {A} a.
Arguments Raise {A} e.
Arguments OutOfFuel {A}.

#[global] Instance outcome_ret : MRet outcome := fun A a => Ok a.
#[global] Instance outcome_bind : MBind outcome := fun A B f x =>
  match x with
  | Ok a => f a
  | Raise e => Raise e
  | OutOfFuel => OutOfFuel
  end.

(** [int(s)] for a non-empty string of decimal digits. On any other
    string this gives [ValueError]; Python accepts a few more (signs,
    surrounding whitespace, underscores), which the parser never passes. *)
Definition py_int (s : str) : outcome Z :=
  match s with
  | [] => Raise ValueError
  | _ =>
      match mapM decimal_value s with
      | Some ds => Ok (fold_left (fun acc d => 10 * acc + d) ds 0)
      | None => Raise ValueError
      end
  end.

(** The value of [int(s)] when it returns. *)
Definition int_value (s : str) : option Z :=
  match py_int s with
  | Ok v => Some v
  | _ => None
  end.

(** ** Regular expressions

    The part of Python's [re] the parser uses, as a backtracking matcher:
    the results of matching are listed in the order the engine tries
    them, so the first one is the match [re] reports. *)
Module Re.

Inductive re :=
| Str (s : str)                            (* literal text *)
| Cls (p : Z -> bool)                      (* one character of a class *)
| Cat (r1 r2 : re)                         (* r1 r2 *)
| Alt (r1 r2 : re)                         (* r1 | r2 *)
| Rep (r : re) (lo : nat) (hi : option nat)  (* greedy r{lo,hi} *)
| Bol                                      (* ^ *)
| Eol                                      (* $ *)
| Grp (r : re).                            (* ( r ), capture group 1 *)

(** A position in the subject: the text before it (last character
    first), the text after it, and what group 1 holds. *)
Record pos := Pos { before : str; after : str; group1 : option str }.

(** The text between two positions of one subject. *)
Definition between (x y : pos) : str :=
  rev (take (length (before y) - length (before x)) (before y)).

Fixpoint eat (lit bef aft : str) : option (str * str) :=
  match lit with
  | [] => Some (bef, aft)
  | a :: lit' =>
      match aft with
      | b :: aft' => if a =? b then eat lit' (b :: bef) aft' else None
      | [] => None
      end
  end.

(** Greedy repetition of [step]: one more round first, then stopping
    here. A round must consume something, which every repeated pattern
    of this file does ([reps_consume], [ParserFacts.all_consume]); the
    fuel bounds the number of rounds by the length of the text left. *)
Fixpoint rep (step : pos -> list pos) (fuel lo : nat) (hi : option nat)
    (x : pos) : list pos :=
  let more f hi' :=
    flat_map (fun y =>
                if (length (after y) <? length (after x))%nat
                then rep step f (pred lo) hi' y else [])
             (step x) in
  match fuel, hi with
  | S f, None => more f None
  | S f, Some (S h) => more f (Some h)
  | _, _ => []
  end ++ match lo with O => [x] | S _ => [] end.

(** Where [$] matches: at the end of the subject, and before a newline
    that ends it. *)
Definition at_end (aft : str) : bool :=
  match aft with
  | [] => true
  | [ch] => ch =? 0x0A
  | _ => false
  end.

Fixpoint m (r : re) (x : pos) : list pos :=
  match r with
  | Str s =>
      match eat s (before x) (after x) with
      | Some (b, a) => [Pos b a (group1 x)]
      | None => []
      end
  | Cls p =>
      match after x with
      | ch :: a => if p ch then [Pos (ch :: before x) a (group1 x)] else []
      | [] => []
      end
  | Cat r1 r2 => flat_map (m r2) (m r1 x)
  | Alt r1 r2 => m r1 x ++ m r2 x
  | Rep r lo hi => rep (m r) (S (length (after x))) lo hi x
  | Bol => match before x with [] => [x] | _ => [] end
  | Eol => if at_end (after x) then [x] else []
  | Grp r =>
      map (fun y => Pos (before y) (after y) (Some (between x y))) (m r x)
  end.

(** Whether a pattern can match the empty string. *)
Fixpoint nullable (r : re) : bool :=
  match r with
  | Str s => str_eqb s []
  | Cls _ => false
  | Cat r1 r2 => nullable r1 && nullable r2
  | Alt r1 r2 => nullable r1 || nullable r2
  | Rep r lo _ => match lo with O => true | S _ => nullable r end
  | Bol | Eol => true
  | Grp r => nullable r
  end.

(** Whether every repeated sub-pattern consumes something. *)
Fixpoint reps_consume (r : re) : bool :=
  match r with
  | Str _ | Cls _ | Bol | Eol => true
  | Cat r1 r2 | Alt r1 r2 => reps_consume r1 && reps_consume r2
  | Rep r _ _ => negb (nullable r) && reps_consume r
  | Grp r => reps_consume r
  end.

(** [re.match(r, text)]: the match at the start of [text], if any. *)
Definition match_ (r : re) (text : str) : option pos :=
  head (m r (Pos [] text None)).

(** [re.search(r, text)]: the leftmost match, as its start and end. *)
Fixpoint search_from (r : re) (bef aft : str) : option (pos * pos) :=
  match m r (Pos bef aft None) with
  | y :: _ => Some (Pos bef aft None, y)
  | [] =>
      match aft with
      | [] => None
      | ch :: aft' => search_from r (ch :: bef) aft'
      end
  end.

Definition search (r : re) (text : str) : option (pos * pos) :=
  search_from r [] text.

(** [bool(re.search(r, text))] *)
Definition found (r : re) (text : str) : bool :=
  match search r text with Some _ => true | None => false end.

(** One match of a left-to-right scan: the text since the previous
    match, the matched text, and group 1. *)
Record hit := Hit { gap : str; whole : str; grp : option str }.

(** The successive non-overlapping matches of [r] and the text left
    after the last one, as [finditer], [findall], [split] and [sub] find
    them. Exact for patterns that cannot match the empty string, which
    all patterns scanned with in this file are
    ([ParserFacts.scanned_not_nullable]); an empty match is passed over
    here. [gap_rev] is the text read since the previous match. *)
Fixpoint scan (r : re) (fuel : nat) (bef aft gap_rev : str)
  : list hit * str :=
  match fuel with
  | O => ([], rev gap_rev ++ aft)
  | S fuel' =>
      let x := Pos bef aft None in
      let first :=
        match m r x with
        | y :: _ =>
            if (length (after y) <? length aft)%nat then Some y else None
        | [] => None
        end in
      match first with
      | Some y =>
          let '(hs, tl) := scan r fuel' (before y) (after y) [] in
          (Hit (rev gap_rev) (between x y) (group1 y) :: hs, tl)
      | None =>
          match aft with
          | [] => ([], rev gap_rev)
          | ch :: aft' => scan r fuel' (ch :: bef) aft' (ch :: gap_rev)
          end
      end
  end.

Definition scan_text (r : re) (text : str) : list hit * str :=
  scan r (S (length text)) [] text [].

(** [re.findall(r, text)] for a pattern without groups. *)
Definition findall (r : re) (text : str) : list str :=
  map whole (fst (scan_text r text)).

(** [re.findall(r, text)] for a pattern with one group; also the
    [group(1)] of the matches of [re.finditer(r, text)]. An unset group
    reads as the empty string. *)
Definition findall_group (r : re) (text : str) : list str :=
  map (fun h => default [] (grp h)) (fst (scan_text r text)).

(** [re.split(r, text)] for a pattern without groups. *)
Definition split (r : re) (text : str) : list str :=
  let '(hs, tl) := scan_text r text in map gap hs ++ [tl].

(** [re.sub(r, '', text)] *)
Definition sub_empty (r : re) (text : str) : str :=
  let '(hs, tl) := scan_text r text in concat (map gap hs) ++ tl.

(** Whether a pattern holds a capture group. *)
Fixpoint has_group (r : re) : bool :=
  match r with
  | Str _ | Cls _ | Bol | Eol => false
  | Cat r1 r2 | Alt r1 r2 => has_group r1 || has_group r2
  | Rep r _ _ => has_group r
  | Grp _ => true
  end.

(** [y] is reached from [x] by reading the text [w]. *)
Definition reads (w : str) (x y : pos) : Prop :=
  after x = w ++ after y /\ before y = rev w ++ before x.

(** A hit of a scan comes from a first result of the matcher. *)
Definition hit_of (r : re) (h : hit) : Prop :=
  exists x y rest w,
    m r x = y :: rest /\ reads w x y /\ w <> [] /\
    whole h = w /\ grp h = group1 y /\ group1 x = None.

(** Pattern syntax. *)
Definition seq (rs : list re) : re := fold_right Cat (Str []) rs.
Definition opt (r : re) : re := Rep r 0 (Some 1%nat).
Definition star (r : re) : re := Rep r 0 None.
Definition plus (r : re) : re := Rep r 1 None.
Definition one_of (chars : str) : re := Cls (fun x => char_in x chars).
Definition ws : re := Cls isspace.
Definition digit : re := Cls isdecimal.
Definition upper_letter : re := Cls is_upper.
Definition letter : re := Cls (fun x => is_upper x || is_lower x).
Fixpoint alts (rs : list re) : re :=
  match rs with
  | [] => Cls (fun _ => false)
  | [r] => r
  | r :: rs' => Alt r (alts rs')
  end.
End Re.

(** ** The OCR text parser *)

Inductive relation_value := Father | Husband | Other.
Inductive gender_value := Male | Female.

(** The strings the records carry for these. *)
Definition relation_label (r : relation_value) : str :=
  match r with
  | Father => u "Father's Name / അച്ഛന്റെ പേര്"
  | Husband => u "Husband's Name / ഭർത്താവിന്റെ പേര്"
  | Other => u "Other / മറ്റുള്ളവ"
  end.

Definition gender_label (g : gender_value) : str :=
  match g with
  | Female => u "Female / സ്ത്രീ"
  | Male => u "Male / പുരുഷൻ"
  end.

(** The dict built for one voter. *)
Record voter := Voter {
  serial_no : option Z;
  voter_id : option str;
  name_ml : option str;
  name_en : option str;
  relative_name_ml : option str;
  relative_name_en : option str;
  relation_type : relation_value;
  house_number : option str;
  age : option Z;
  gender : option gender_value
}.

(** The patterns of [parse_ocr_text] and [parse_voter_block]. Joiners
    inside a literal of the source are written out here. In the comments
    a space separates a star from a closing parenthesis after it. *)
Module Pat.
Import Re.

Definition ACHCHANTE : str := u "അച്ഛന്റെ".
Definition BHARTHAVINTE : str := u "ഭര്" ++ [ZWJ] ++ u "ത്താവിന്റെ".
Definition MATTULLAVA : str := u "മറ്റുള്ളവ".

(** [\d+\s+[A-Z]{2,3}\d{6,}] *)
Definition data_start : re :=
  seq [plus digit; plus ws; Rep upper_letter 2 (Some 3%nat); Rep digit 6 None].

(** [[A-Za-z]{2,3}\d{6,10}] *)
Definition voter_id : re :=
  seq [Rep letter 2 (Some 3%nat); Rep digit 6 (Some 10%nat)].

(** [(?:^|\s)(\d{1,4})\s+[A-Za-z]{2,3}\d] *)
Definition serial : re :=
  seq [Alt Bol ws; Grp (Rep digit 1 (Some 4%nat)); plus ws;
       Rep letter 2 (Some 3%nat); digit].

(** [(?:^|\s)\d{1,4}\s+[A-Za-z]{2,3}\d{6,}] *)
Definition new_row : re :=
  seq [Alt Bol ws; Rep digit 1 (Some 4%nat); plus ws;
       Rep letter 2 (Some 3%nat); Rep digit 6 None].

(** [^(ഫോട്ടോ\s* )+$] *)
Definition photo_only : re :=
  seq [Bol; plus (Grp (seq [Str (u "ഫോട്ടോ"); star ws])); Eol].

(** [[A-Z]{2,3}\d{6,}] *)
Definition id_upper : re :=
  seq [Rep upper_letter 2 (Some 3%nat); Rep digit 6 None].

(** [പേര്?[്‌]*\s*[:+]] *)
Definition name_label : re :=
  seq [Str (u "പേര"); opt (Str [VIRAMA]); star (one_of [VIRAMA; ZWNJ]);
       star ws; one_of (u ":+")].

(** [(അച്ഛ|ഭര്‍ത്താ|മറ്റ)] *)
Definition relative_hint : re :=
  Grp (alts [Str (u "അച്ഛ"); Str (u "ഭര്" ++ [ZWJ] ++ u "ത്താ");
             Str (u "മറ്റ")]).

(** [(അച്ഛന്റെ|ഭര്‍ത്താവിന്റെ|മറ്റുള്ളവ)] *)
Definition relative_label : re :=
  Grp (alts [Str ACHCHANTE; Str BHARTHAVINTE; Str MATTULLAVA]).

(** [(വീട്ടു|വിട്ടു)\s*നമ്പ] *)
Definition house_label : re :=
  seq [Grp (Alt (Str (u "വീട്ടു")) (Str (u "വിട്ടു"))); star ws;
       Str (u "നമ്പ")].

(** [പ്രായം] *)
Definition age_label : re := Str (u "പ്രായം").

(** [പേര്?[്‌]*\s*[:+]\s*] *)
Definition name_split : re :=
  seq [Str (u "പേര"); opt (Str [VIRAMA]); star (one_of [VIRAMA; ZWNJ]);
       star ws; one_of (u ":+"); star ws].

(** [(?:അച്ഛന്റെ|ഭര്‍ത്താവിന്റെ|മറ്റുള്ളവ)\s*(?:പേര്?[്‌]*\s* )?[:+]?\s*] *)
Definition relative_split : re :=
  seq [alts [Str ACHCHANTE; Str BHARTHAVINTE; Str MATTULLAVA]; star ws;
       opt (seq [Str (u "പേര"); opt (Str [VIRAMA]);
                 star (one_of [VIRAMA; ZWNJ]); star ws]);
       opt (one_of (u ":+")); star ws].

(** [(?:വീട്ടു|വിട്ടു)\s*നമ്പര്?[്‍]*\s*[:+]\s*] *)
Definition house_split : re :=
  seq [Alt (Str (u "വീട്ടു")) (Str (u "വിട്ടു")); star ws;
       Str (u "നമ്പര"); opt (Str [VIRAMA]); star (one_of [VIRAMA; ZWJ]);
       star ws; one_of (u ":+"); star ws].

(** [\s*(ടോ|oes|ലു|ല്ല|ലല|llo)\s*$] *)
Definition house_noise : re :=
  seq [star ws;
       Grp (alts [Str (u "ടോ"); Str (u "oes"); Str (u "ലു"); Str (u "ല്ല");
                  Str (u "ലല"); Str (u "llo")]);
       star ws; Eol].

(** [പ്രായം\s*[:+]\s*] *)
Definition age_split : re :=
  seq [Str (u "പ്രായം"); star ws; one_of (u ":+"); star ws].

(** [(\d{2,3})] *)
Definition age_number : re := Grp (Rep digit 2 (Some 3%nat)).

(** [\s*(ഫോട്ടോ|ടോ|oes|ലു|ല്ല)\s*$] *)
Definition name_noise : re :=
  seq [star ws;
       Grp (alts [Str (u "ഫോട്ടോ"); Str (u "ടോ"); Str (u "oes");
                  Str (u "ലു"); Str (u "ല്ല")]);
       star ws; Eol].

(** [\s*\|\s*$] *)
Definition trailing_bar : re :=
  seq [star ws; Str (u "|"); star ws; Eol].

(** The patterns used with [findall], [finditer], [split] and [sub]. *)
Definition scanned : list re :=
  [voter_id; serial; relative_label; name_split; relative_split;
   house_split; house_noise; age_split; name_noise; trailing_bar].

(** All patterns. *)
Definition all : list re :=
  scanned ++ [data_start; new_row; photo_only; id_upper; name_label;
              relative_hint; house_label; age_label; age_number].
End Pat.

(** The four accumulator lines of [parse_voter_block]. *)
Record field_lines := FieldLines {
  name_line : str;
  relative_line : str;
  house_line : str;
  age_gender_line : str
}.

(** The body of [for line in lines] in [parse_voter_block]. *)
Definition classify_line (a : field_lines) (line : str) : field_lines :=
  let line_stripped := strip line in
  match line_stripped with
  | [] => a
  | _ =>
      if Re.found Pat.id_upper line_stripped then a
      else if Re.found Pat.name_label line_stripped
              && negb (Re.found Pat.relative_hint line_stripped)
      then FieldLines (name_line a ++ u " " ++ line_stripped)
                      (relative_line a) (house_line a) (age_gender_line a)
      else if Re.found Pat.relative_label line_stripped
      then FieldLines (name_line a)
                      (relative_line a ++ u " " ++ line_stripped)
                      (house_line a) (age_gender_line a)
      else if Re.found Pat.house_label line_stripped
      then FieldLines (name_line a) (relative_line a)
                      (house_line a ++ u " " ++ line_stripped)
                      (age_gender_line a)
      else if Re.found Pat.age_label line_stripped
      then FieldLines (name_line a) (relative_line a) (house_line a)
                      (age_gender_line a ++ u " " ++ line_stripped)
      else a
  end.

Definition field_lines_of (block_text : str) : field_lines :=
  fold_left classify_line (split_char 0x0A block_text) (FieldLines [] [] [] []).

(** [names] *)
Definition names_of (a : field_lines) : list str :=
  strip_nonempty (Re.split Pat.name_split (strip (name_line a))).

(** [rel_names] *)
Definition rel_names_of (a : field_lines) : list str :=
  strip_nonempty (Re.split Pat.relative_split (strip (relative_line a))).

(** The body of [for match in re.finditer(...)]. *)
Definition relation_of (rel_type : str) : relation_value :=
  if contains (u "അച്ഛ") rel_type then Father
  else if contains (u "ഭര്" ++ [ZWJ] ++ u "ത്താ") rel_type then Husband
  else Other.

(** [relation_types] *)
Definition relation_types_of (a : field_lines) : list relation_value :=
  map relation_of (Re.findall_group Pat.relative_label (relative_line a)).

(** [houses] *)
Definition houses_of (a : field_lines) : list str :=
  map (fun h => strip (Re.sub_empty Pat.house_noise h))
      (strip_nonempty (Re.split Pat.house_split (strip (house_line a)))).

(** [age_gender_parts] *)
Definition age_gender_parts_of (a : field_lines) : list str :=
  strip_nonempty (Re.split Pat.age_split (strip (age_gender_line a))).

(** The age read from one part: [age_val] as appended to [ages]. The
    test [if age_val and (...)] is on the truth value of [age_val], which
    is false for [None] and for 0. *)
Definition age_of (part : str) : outcome (option Z) :=
  age_val ←
    match Re.search Pat.age_number part with
    | Some (_, y) =>
        match Re.group1 y with
        | Some g => v ← py_int g; Ok (Some v)
        | None => Raise TypeError
        end
    | None => Ok None
    end;
  match age_val with
  | Some v =>
      if negb (v =? 0) && ((v <? 18) || (v >? 120)) then Ok None
      else Ok (Some v)
  | None => Ok None
  end.

(** The age kept for a part when [age_of] returns. *)
Definition age_value (part : str) : option Z :=
  match age_of part with
  | Ok a => a
  | _ => None
  end.

(** The gender read from one part, as appended to [genders]. Lower-casing
    is exact on ASCII here; no character outside ASCII lower-cases to one
    of [a], [y], [)], so the test is the one of the source. *)
Definition has_feminine_marker (part : str) : bool :=
  contains (u "സ്ത്രീ") part || contains (u "സ്രീ") part
  || contains (u "ay)") (lower part).

Definition gender_of (part : str) : gender_value :=
  if has_feminine_marker part then Female else Male.

(** The loop [for part in age_gender_parts], giving [ages] and [genders]
    side by side. *)
Definition ages_genders_of (parts : list str)
  : outcome (list (option Z * gender_value)) :=
  mapM (fun part => a ← age_of part; Ok (a, gender_of part)) parts.

(** Truth value of an optional string. *)
Definition truthy (o : option str) : bool :=
  match o with
  | Some (_ :: _) => true
  | _ => false
  end.

(** A record is appended when its identifier is true. *)
Definition kept (v : voter) : bool := truthy (voter_id v).

(** The clean-up of [voter["name_ml"]]. *)
Definition clean_name (o : option str) : option str :=
  if truthy o
  then (fun s => strip (Re.sub_empty Pat.trailing_bar
                          (strip (Re.sub_empty Pat.name_noise s)))) <$> o
  else o.

(** The clean-up of [voter["relative_name_ml"]]. *)
Definition clean_relative_name (o : option str) : option str :=
  if truthy o
  then (fun s => strip (Re.sub_empty Pat.name_noise s)) <$> o
  else o.

Section BuildRecords.
Variables (voter_ids serial_nums names rel_names houses : list str).
Variable relation_types : list relation_value.
Variable ages : list (option Z).
Variable genders : list gender_value.

(** The dict built for index [idx], after the clean-up of its names. *)
Definition make_voter (idx : nat) : outcome voter :=
  serial ←
    match serial_nums !! idx with
    | Some s => v ← py_int s; Ok (Some v)
    | None => Ok None
    end;
  Ok {| serial_no := serial;
        voter_id := upper <$> voter_ids !! idx;
        name_ml := clean_name (names !! idx);
        name_en := None;
        relative_name_ml := clean_relative_name (rel_names !! idx);
        relative_name_en := None;
        relation_type := default Father (relation_types !! idx);
        house_number := houses !! idx;
        age := mjoin (ages !! idx);
        gender := genders !! idx |}.

(** The record of index [idx], when its serial number is readable. *)
Definition voter_at (idx : nat) : voter :=
  {| serial_no := serial_nums !! idx ≫= int_value;
     voter_id := upper <$> voter_ids !! idx;
     name_ml := clean_name (names !! idx);
     name_en := None;
     relative_name_ml := clean_relative_name (rel_names !! idx);
     relative_name_en := None;
     relation_type := default Father (relation_types !! idx);
     house_number := houses !! idx;
     age := mjoin (ages !! idx);
     gender := genders !! idx |}.

(** The loop [for idx in range(num_voters)]. *)
Fixpoint build_voters (idxs : list nat) (voters : list voter)
  : outcome (list voter) :=
  match idxs with
  | [] => Ok voters
  | idx :: rest =>
      v ← make_voter idx;
      build_voters rest (if kept v then voters ++ [v] else voters)
  end.
End BuildRecords.

(** [parse_voter_block(block_text, voter_ids, serial_nums)] *)
Definition parse_voter_block (block_text : str) (voter_ids serial_nums : list str)
  : outcome (list voter) :=
  let a := field_lines_of block_text in
  ag ← ages_genders_of (age_gender_parts_of a);
  build_voters voter_ids serial_nums (names_of a) (rel_names_of a) (houses_of a)
               (relation_types_of a) (map fst ag) (map snd ag)
               (seq 0 (length voter_ids)) [].

(** [next_line] is a photo placeholder line. *)
Definition is_photo_line (next_line : str) : bool :=
  str_eqb (strip next_line) (u "ഫോട്ടോ") || str_eqb (strip next_line) []
  || match Re.match_ Pat.photo_only (strip next_line) with
     | Some _ => true
     | None => false
     end.

(** [next_line] ends the block being collected. *)
Definition ends_block (next_line : str) : bool :=
  Re.found Pat.new_row next_line
  || (contains (u "വയസ്സ്") next_line || contains (u "ആകെ പേജ") next_line
      || contains (u "സപ്പിമെന്റ") next_line).

Section Lines.
Variable lines : list str.

(** The loop [while j < len(lines)] that collects a block: the final
    [j] and [block_lines]. *)
Fixpoint collect_block (fuel : nat) (j : nat) (block_lines : list str)
  : outcome (nat * list str) :=
  match fuel with
  | O => OutOfFuel
  | S fuel' =>
      if bool_decide (j < length lines)%nat then
        match lines !! j with
        | None => Raise IndexError
        | Some next_line =>
            if ends_block next_line then Ok (j, block_lines)
            else if is_photo_line next_line
            then collect_block fuel' (S j) block_lines
            else collect_block fuel' (S j) (block_lines ++ [next_line])
        end
      else Ok (j, block_lines)
  end.

(** The loop [while i < len(lines)] of [parse_ocr_text]. *)
Fixpoint ocr_loop (fuel : nat) (i : nat) (voters : list voter)
  : outcome (list voter) :=
  match fuel with
  | O => OutOfFuel
  | S fuel' =>
      if bool_decide (i < length lines)%nat then
        match lines !! i with
        | None => Raise IndexError
        | Some line =>
            let voter_ids_in_line := Re.findall Pat.voter_id line in
            match voter_ids_in_line with
            | _ :: _ =>
                let serial_nums := Re.findall_group Pat.serial line in
                '(j, block_lines) ←
                  collect_block (S (length lines)) (S i) [line];
                parsed ← parse_voter_block (join [0x0A] block_lines)
                                           voter_ids_in_line serial_nums;
                ocr_loop fuel' j (voters ++ parsed)
            | [] => ocr_loop fuel' (S i) voters
            end
        end
      else Ok voters
  end.

(** The index the scan starts at: the first line that looks like a data
    row, or 0. *)
Definition start_index : nat :=
  default 0%nat
    (fst <$> list_find (fun line => Re.found Pat.data_start line = true) lines).
End Lines.

(** [parse_ocr_text(text)] *)
Definition parse_ocr_text (text : str) : outcome (list voter) :=
  let lines := strip_nonempty (split_char 0x0A (strip text)) in
  match lines with
  | [] => Ok []
  | _ => ocr_loop lines (S (length lines)) (start_index lines) []
  end.

(** ** Predicates and inputs used in the statements *)

(** What the loop can emit: lower-case letters from the tables, and ASCII
    characters of the word itself. *)
Definition emitted (chars : str) (y : Z) : Prop :=
  is_lower y = true \/ (isascii y = true /\ In y chars).

Definition lower_values {K} (d : list (K * str)) : bool :=
  forallb (fun kv => forallb is_lower (snd kv)) d.

(** What the scan needs of a table entry with a key of three code points
    to reach the conjunct lookup at the first of them and find the entry:
    the first is a consonant and in no table tested before, the second is
    the virama, and the key has no earlier duplicate. *)
Definition conjunct3_ok (kv : str * str) : bool :=
  match fst kv with
  | [x; v; z] =>
      (v =? VIRAMA) && is_malayalam x && negb (cmem SPECIALS x)
      && negb (cmem VOWELS x) && negb (cmem MATRAS x) && cmem CONSONANTS x
      && bool_decide (sget CONJUNCTS (fst kv) = Some (snd kv))
  | _ => true
  end.

(** The cursor and the output of the step at a conjunct of value [v]
    followed by the text [post]. *)
Definition conjunct_step (i : nat) (v : str) (post : str) : nat * list str :=
  match post with
  | [] => ((i + 3)%nat, [v])
  | mt :: _ =>
      if cmem MATRAS mt then ((i + 4)%nat, [v ++ sub MATRAS mt])
      else ((i + 3)%nat, v :: (if mt =? VIRAMA then [] else [u "a"]))
  end.

(** A string without whitespace, and a non-empty such string. *)
Definition nows (s : str) : Prop := Forall (fun y => isspace y = false) s.
Definition is_word (s : str) : Prop := s <> [] /\ nows s.

Definition known_values_are_words : bool :=
  forallb (fun kv => negb (str_eqb (snd kv) [])
                     && forallb (fun y => negb (isspace y)) (snd kv))
          KNOWN_NAMES.


(** The characters the ASCII fast path is specified for: letters, space,
    hyphen, slash and period. *)
Definition plain_char (x : Z) : bool :=
  is_upper x || is_lower x || char_in x (u " -/.").

(** A non-empty string of decimal digits. *)
Definition numeric (s : str) : Prop :=
  s <> [] /\ forallb isdecimal s = true.

Definition numericb (s : str) : bool :=
  negb (str_eqb s []) && forallb isdecimal s.


(** The columns of a block give the record of each index. *)
Definition block_voter_at (block_text : str) (voter_ids serial_nums : list str)
  : nat -> voter :=
  let a := field_lines_of block_text in
  let parts := age_gender_parts_of a in
  voter_at voter_ids serial_nums (names_of a) (rel_names_of a) (houses_of a)
           (relation_types_of a) (map age_value parts) (map gender_of parts).

(** The records of the block: one per index whose identifier is kept. *)
Definition block_records (block_text : str) (voter_ids serial_nums : list str)
  : list voter :=
  List.filter kept
    (map (block_voter_at block_text voter_ids serial_nums)
         (seq 0 (length voter_ids))).

(** The key of [KNOWN_NAMES] with a joiner inside it. *)
Definition ELSA_WITH_JOINER : str := u "എല്" ++ [ZWJ] ++ u "സ".

(** A page of one row whose age reads "00". *)
Definition AGE_ZERO_PAGE : str :=
  u "1 AB123456" ++ [0x0A] ++ u "പ്രായം : 00".

(** The block of the specification's example: three identifiers, two
    names, one house number. *)
Definition ALIGN_BLOCK : str :=
  u "1 AB123451 2 AB123452 3 AB123453" ++ [0x0A]
  ++ u "പേര് : N1 പേര് : N2" ++ [0x0A]
  ++ u "വീട്ടു നമ്പര് : H1".
Definition ALIGN_IDS : list str := [u "AB123451"; u "AB123452"; u "AB123453"].
Definition ALIGN_SERIALS : list str := [u "1"; u "2"; u "3"].

(** A block of two identifiers with one age/gender segment. *)
Definition GENDER_BLOCK : str :=
  u "1 AB123451 2 AB123452" ++ [0x0A] ++ u "പ്രായം : 34 ലിംഗം : സ്ത്രീ".

(** ** Facts about the string operations *)

Lemma lstrip_by_split p s :
  exists w, s = w ++ lstrip_by p s /\ forallb p w = true.
Proof.
  induction s as [|x s IH]; simpl.
  - by exists [].
  - destruct (p x) eqn:Hx.
    + destruct IH as (w & Hw & Hp). exists (x :: w). simpl.
      rewrite Hx, Hp. split; [by f_equal | done].
    + by exists [].
Qed.

Lemma lstrip_by_no_lead p s : no_lead p (lstrip_by p s).
Proof.
  induction s as [|x s IH]; simpl; [done|].
  destruct (p x) eqn:Hx; [done | by simpl].
Qed.

Lemma lstrip_by_id p s : no_lead p s -> lstrip_by p s = s.
Proof. destruct s as [|x s]; simpl; [done|]. by intros ->. Qed.

Lemma rstrip_by_split p s :
  exists w, s = rstrip_by p s ++ w /\ forallb p w = true.
Proof.
  unfold rstrip_by.
  destruct (lstrip_by_split p (rev s)) as (w & Hw & Hp).
  exists (rev w). split.
  - rewrite <- rev_app_distr, <- Hw. by rewrite rev_involutive.
  - rewrite forallb_forall in *. intros x Hx. apply Hp. by apply in_rev.
Qed.

Lemma rstrip_by_id p s : no_lead p (rev s) -> rstrip_by p s = s.
Proof.
  intros H. unfold rstrip_by. rewrite lstrip_by_id by done.
  apply rev_involutive.
Qed.

Lemma no_lead_app_l p s w : no_lead p (s ++ w) -> no_lead p s.
Proof. by destruct s. Qed.

Lemma strip_split s : exists w1 w2, s = w1 ++ strip s ++ w2.
Proof.
  unfold strip.
  destruct (lstrip_by_split isspace s) as (w1 & H1 & _).
  destruct (rstrip_by_split isspace (lstrip_by isspace s)) as (w2 & H2 & _).
  exists w1, w2. by rewrite <- H2.
Qed.

Lemma strip_trimmed s : trimmed (strip s).
Proof.
  split.
  - unfold strip.
    destruct (rstrip_by_split isspace (lstrip_by isspace s)) as (w & Hw & _).
    apply no_lead_app_l with w. rewrite <- Hw. apply lstrip_by_no_lead.
  - unfold strip, rstrip_by. rewrite rev_involutive. apply lstrip_by_no_lead.
Qed.

Lemma strip_id s : trimmed s -> strip s = s.
Proof.
  intros [H1 H2]. unfold strip.
  rewrite (lstrip_by_id _ _ H1). by apply rstrip_by_id.
Qed.

Lemma strip_idem s : strip (strip s) = strip s.
Proof. apply strip_id, strip_trimmed. Qed.

Lemma strip_elem x s : In x (strip s) -> In x s.
Proof.
  intros H. destruct (strip_split s) as (w1 & w2 & E). rewrite E.
  apply in_or_app. right. apply in_or_app. by left.
Qed.

Lemma remove_char_id ch s : ~ In ch s -> remove_char ch s = s.
Proof.
  unfold remove_char. induction s as [|x s IH]; simpl; [done|].
  intros H. destruct (Z.eqb_spec x ch) as [->|Hne]; simpl.
  - exfalso. apply H. by left.
  - f_equal. apply IH. intros Hin. apply H. by right.
Qed.

Lemma clean_text_id s :
  ~ In ZWJ (strip s) -> ~ In ZWNJ (strip s) -> clean_text s = strip s.
Proof.
  intros HJ HN. unfold clean_text.
  rewrite (remove_char_id ZWJ (strip s)) by done.
  rewrite (remove_char_id ZWNJ (strip s)) by done.
  rewrite (remove_char_id ZWJ (strip s)) by done.
  by rewrite (remove_char_id ZWNJ (strip s)).
Qed.

(** ** Facts about the transliterator *)

Lemma printable_not_space x : 33 <= x <= 126 -> isspace x = false.
Proof. unfold isspace. lia. Qed.

Lemma is_lower_range x : is_lower x = true <-> 97 <= x <= 122.
Proof. unfold is_lower. lia. Qed.

Lemma is_upper_range x : is_upper x = true <-> 65 <= x <= 90.
Proof. unfold is_upper. lia. Qed.

Lemma isascii_range x : isascii x = true <-> 0 <= x < 128.
Proof. unfold isascii. lia. Qed.

(** The loop of [transliterate_word] ends: each round moves the cursor
    forward, and fuel beyond the length of the word changes nothing. *)
Lemma tw_step_advance chars i : (i < fst (tw_step chars i))%nat.
Proof. unfold tw_step. repeat case_match; cbn [fst]; lia. Qed.

Lemma tw_loop_fuel chars fuel k i result :
  (length chars <= i + fuel)%nat ->
  tw_loop chars (fuel + k) i result = tw_loop chars fuel i result.
Proof.
  revert i result. induction fuel as [|fuel IH]; intros i result Hlen.
  - destruct k as [|k]; cbn; [done|].
    rewrite bool_decide_eq_false_2 by lia. done.
  - cbn. case_bool_decide as Hi; [|done].
    pose proof (tw_step_advance chars i) as Hadv.
    destruct (tw_step chars i) as [i' out]. cbn [fst] in Hadv.
    apply IH. lia.
Qed.

Lemma dict_get_lower {K} (eqb : K -> K -> bool) d k v :
  lower_values d = true -> dict_get eqb d k = Some v ->
  forallb is_lower v = true.
Proof.
  unfold lower_values. induction d as [|[k' v'] d IH]; cbn; [done|].
  rewrite andb_true_iff. intros [Hv Hd].
  destruct (eqb k k'); [by intros [= <-] | by apply IH].
Qed.

Lemma lower_emitted chars v :
  forallb is_lower v = true -> Forall (emitted chars) v.
Proof.
  rewrite forallb_forall, Forall_forall. intros H y Hy. left.
  apply H. by apply list_elem_of_In.
Qed.

Lemma sub_emitted chars d x :
  lower_values d = true -> Forall (emitted chars) (sub d x).
Proof.
  intros Hd. unfold sub, cget.
  destruct (dict_get Z.eqb d x) as [v|] eqn:E; cbn; [|constructor].
  eapply lower_emitted, dict_get_lower; eauto.
Qed.

Lemma at_elem chars i : (i < length chars)%nat -> In (at_ chars i) chars.
Proof.
  intros Hi. unfold at_.
  destruct (lookup_lt_is_Some_2 chars i Hi) as [x Hx]. rewrite Hx. cbn.
  apply list_elem_of_In. by eapply list_elem_of_lookup_2.
Qed.

Lemma tw_step_emitted chars i :
  (i < length chars)%nat ->
  Forall (Forall (emitted chars)) (snd (tw_step chars i)).
Proof.
  intros Hi.
  assert (HS : Forall (emitted chars) (sub SPECIALS (at_ chars i)))
    by (by apply sub_emitted).
  assert (HV : Forall (emitted chars) (sub VOWELS (at_ chars i)))
    by (by apply sub_emitted).
  assert (HM : forall x, Forall (emitted chars) (sub MATRAS x))
    by (intros; by apply sub_emitted).
  assert (HC : Forall (emitted chars) (sub CONSONANTS (at_ chars i)))
    by (by apply sub_emitted).
  assert (HA : Forall (emitted chars) (u "a"))
    by (by apply lower_emitted).
  assert (HJ : forall k v, sget CONJUNCTS k = Some v -> Forall (emitted chars) v).
  { intros k v E. eapply lower_emitted, dict_get_lower; [|exact E]. done. }
  unfold tw_step.
  repeat case_match; cbn [snd];
    repeat first [ assumption | apply HM | by eapply HJ
                 | apply Forall_nil_2 | apply Forall_app_2
                 | apply Forall_cons_2 ].
  right. split; [done | by apply at_elem].
Qed.

Lemma tw_loop_emitted chars fuel i result :
  Forall (Forall (emitted chars)) result ->
  Forall (Forall (emitted chars)) (tw_loop chars fuel i result).
Proof.
  revert i result. induction fuel as [|fuel IH]; intros i result Hres; cbn.
  - done.
  - case_bool_decide as Hi; [|done].
    pose proof (tw_step_emitted chars i Hi) as Hout.
    destruct (tw_step chars i) as [i' out]. cbn [snd] in Hout.
    apply IH. by apply Forall_app_2.
Qed.

Lemma tw_chars_emitted word : Forall (emitted word) (tw_chars word).
Proof.
  unfold tw_chars. apply Forall_concat, tw_loop_emitted. constructor.
Qed.

(** The text handed to [title] holds ASCII only. *)
Lemma tw_chars_ascii word : Forall (fun y => isascii y = true) (tw_chars word).
Proof.
  eapply Forall_impl; [apply tw_chars_emitted|].
  intros y [Hy | [Hy _]]; [|done].
  apply isascii_range. apply is_lower_range in Hy. lia.
Qed.

Lemma title_from_nows b s : nows s -> nows (title_from b s).
Proof.
  revert b. induction s as [|x s IH]; intros b Hs; cbn; [constructor|].
  apply Forall_cons_1 in Hs as [Hx Hs].
  destruct (is_upper x || is_lower x) eqn:Hcased.
  - apply Forall_cons_2; [|by apply IH].
    apply printable_not_space.
    unfold to_lower, to_upper, is_upper, is_lower in *.
    destruct b; repeat case_match; lia.
  - apply Forall_cons_2; [done | by apply IH].
Qed.

Lemma title_from_nil b s : title_from b s = [] -> s = [].
Proof. destruct s as [|x s]; cbn; [done|]. by case_match. Qed.

Lemma emitted_nows word s : nows word -> Forall (emitted word) s -> nows s.
Proof.
  intros Hw Hs. eapply Forall_impl; [exact Hs|]. intros y [Hy | [_ Hy]].
  - apply printable_not_space. apply is_lower_range in Hy. lia.
  - unfold nows in Hw. rewrite Forall_forall in Hw.
    apply Hw. by apply list_elem_of_In.
Qed.

Lemma transliterate_word_is_word word :
  is_word word -> is_word (transliterate_word word).
Proof.
  intros [Hne Hw]. unfold transliterate_word.
  pose proof (emitted_nows word _ Hw (tw_chars_emitted word)) as Hc.
  destruct (tw_chars word) as [|y t] eqn:E; [done|].
  split.
  - intros Hnil. by apply title_from_nil in Hnil.
  - by apply title_from_nows.
Qed.

Lemma split_ws_from_words cur s :
  nows cur -> Forall is_word (split_ws_from cur s).
Proof.
  revert cur. induction s as [|x s IH]; intros cur Hcur; cbn.
  - destruct cur as [|y cur]; [constructor|].
    apply Forall_cons_2; [|constructor]. split.
    + intros H. apply (f_equal (@length Z)) in H.
      rewrite length_rev in H. done.
    + by apply Forall_rev.
  - destruct (isspace x) eqn:Hx.
    + destruct cur as [|y cur]; [apply IH; constructor|].
      apply Forall_cons_2; [|apply IH; constructor]. split.
      * intros H. apply (f_equal (@length Z)) in H.
        rewrite length_rev in H. done.
      * by apply Forall_rev.
    + apply IH. by apply Forall_cons_2.
Qed.

Lemma nows_strip s : nows s -> nows (strip s).
Proof.
  unfold nows. rewrite !Forall_forall. intros H y Hy.
  apply H, list_elem_of_In, strip_elem. by apply list_elem_of_In.
Qed.

Lemma known_lookup_is_word w v : known_lookup w = Some v -> is_word v.
Proof.
  assert (H : known_values_are_words = true) by (vm_compute; reflexivity).
  unfold known_lookup. intros E.
  destruct (find _ KNOWN_NAMES) as [[k v']|] eqn:F; [|done].
  cbn in E. injection E as <-.
  apply find_some in F as [Hin _].
  unfold known_values_are_words in H. rewrite forallb_forall in H.
  specialize (H _ Hin). cbn [snd] in H.
  apply andb_true_iff in H as [H1 H2]. split.
  - intros ->. done.
  - apply Forall_forall. intros y Hy. rewrite forallb_forall in H2.
    apply negb_true_iff, H2. by apply list_elem_of_In.
Qed.

Lemma translit_one_words word :
  nows word -> Forall is_word (translit_one word).
Proof.
  intros Hw. unfold translit_one.
  pose proof (nows_strip _ Hw) as Hs.
  destruct (strip word) as [|x t] eqn:E; [constructor|].
  destruct (known_lookup (x :: t)) as [v|] eqn:K.
  - apply Forall_cons_2; [|constructor]. by eapply known_lookup_is_word.
  - apply Forall_cons_2; [|constructor].
    by apply transliterate_word_is_word.
Qed.

Lemma is_word_no_lead w : is_word w -> no_lead isspace w.
Proof. intros [Hne Hw]. destruct w; [done|]. by apply Forall_cons_1 in Hw as [? _]. Qed.

Lemma is_word_no_trail w : is_word w -> no_lead isspace (rev w).
Proof.
  intros [Hne Hw]. apply is_word_no_lead. split.
  - intros H. apply Hne. apply (f_equal (@rev Z)) in H.
    by rewrite rev_involutive in H.
  - by apply Forall_rev.
Qed.

Lemma join_words_trimmed sep ws :
  Forall is_word ws -> trimmed (join sep ws).
Proof.
  intros H. split.
  - destruct H as [|w ws Hw Hws]; cbn; [done|].
    destruct ws; [by apply is_word_no_lead|].
    destruct Hw as [Hne Hw]. destruct w as [|y w]; [done|]. cbn.
    by apply Forall_cons_1 in Hw as [? _].
  - induction H as [|w ws Hw Hws IH]; cbn; [done|].
    destruct ws as [|w' ws]; [by apply is_word_no_trail|].
    rewrite !rev_app_distr.
    assert (Hne : join sep (w' :: ws) <> []).
    { apply Forall_cons_1 in Hws as [[Hne' _] _]. cbn.
      destruct ws; [done|]. destruct w'; [done|]. done. }
    destruct (rev (join sep (w' :: ws))) as [|z t] eqn:E; [|exact IH].
    exfalso. apply Hne. apply (f_equal (@rev Z)) in E.
    by rewrite rev_involutive in E.
Qed.

Lemma plain_char_range x :
  plain_char x = true ->
  65 <= x <= 90 \/ 97 <= x <= 122 \/ x = 32 \/ x = 45 \/ x = 47 \/ x = 46.
Proof.
  unfold plain_char, char_in, is_upper, is_lower.
  change (u " -/.") with [32; 45; 47; 46]. cbn [existsb]. lia.
Qed.

Lemma plain_char_ascii x : plain_char x = true -> isascii x = true.
Proof. intros H%plain_char_range. unfold isascii. lia. Qed.

Lemma plain_char_not_joiner x :
  plain_char x = true -> x <> ZWJ /\ x <> ZWNJ.
Proof. intros H%plain_char_range. unfold ZWJ, ZWNJ. lia. Qed.

Lemma fast_path_plain s :
  forallb plain_char s = true -> transliterate_to_english s = strip s.
Proof.
  intros Hs. rewrite forallb_forall in Hs.
  assert (Hstrip : forall x, In x (strip s) -> plain_char x = true).
  { intros x Hx. by apply Hs, strip_elem. }
  unfold transliterate_to_english.
  destruct s as [|x0 s0]; [done|].
  destruct (strip (x0 :: s0)) as [|y t] eqn:E; [done|].
  rewrite clean_text_id; rewrite E.
  - rewrite (proj2 (forallb_forall _ _)); [done|].
    intros x Hx. by rewrite (plain_char_ascii x (Hstrip x Hx)).
  - intros Hin. by destruct (plain_char_not_joiner _ (Hstrip _ Hin)).
  - intros Hin. by destruct (plain_char_not_joiner _ (Hstrip _ Hin)).
Qed.

(** The step at a conjunct. *)
Lemma at_app pre l j : at_ (pre ++ l) (length pre + j) = at_ l j.
Proof.
  unfold at_. rewrite lookup_app_r by lia.
  by replace (length pre + j - length pre)%nat with j by lia.
Qed.

Lemma conjuncts_ok : forallb conjunct3_ok CONJUNCTS = true.
Proof. vm_compute. reflexivity. Qed.

Lemma matra_not_virama mt : cmem MATRAS mt = true -> mt <> VIRAMA.
Proof. intros H ->. vm_compute in H. discriminate. Qed.

(** Conjunct priority for the keys of three code points: wherever the
    scan stands at such a key, it emits the table value of the conjunct,
    followed by the sound of a vowel sign that comes next, by "a" when
    another character that is not the virama comes next, and by nothing
    at the end of the word. *)
Lemma conjunct3_step pre k v post :
  In (k, v) CONJUNCTS -> length k = 3%nat ->
  tw_step (pre ++ k ++ post) (length pre) = conjunct_step (length pre) v post.
Proof.
  intros Hin Hlen.
  pose proof conjuncts_ok as Hok. rewrite forallb_forall in Hok.
  specialize (Hok _ Hin). unfold conjunct3_ok in Hok. cbn [fst snd] in Hok.
  destruct k as [|x [|vi [|z [|??]]]]; try done.
  rewrite !andb_true_iff in Hok.
  destruct Hok as ((((((Hv & Hmal) & Hsp) & Hvo) & Hma) & Hco) & Hget).
  apply Z.eqb_eq in Hv as ->. apply bool_decide_eq_true in Hget.
  apply negb_true_iff in Hsp, Hvo, Hma.
  unfold tw_step.
  replace (at_ (pre ++ [x; VIRAMA; z] ++ post) (length pre)) with x
    by (rewrite <- (Nat.add_0_r (length pre)) at 1; by rewrite at_app).
  rewrite !at_app. cbn [at_ app].
  change (at_ (x :: VIRAMA :: z :: post) 1) with VIRAMA.
  change (at_ (x :: VIRAMA :: z :: post) 2) with z.
  change (at_ (x :: VIRAMA :: z :: post) 3) with (at_ post 0).
  rewrite Hmal, Hsp, Hvo, Hma, Hco. cbn [negb andb].
  rewrite bool_decide_eq_true_2 by (rewrite !length_app; cbn; lia).
  rewrite Z.eqb_refl. cbn [andb]. rewrite Hget.
  unfold conjunct_step. destruct post as [|mt post].
  - rewrite bool_decide_eq_false_2 by (rewrite !length_app; cbn; lia).
    done.
  - rewrite bool_decide_eq_true_2 by (rewrite !length_app; cbn; lia).
    change (at_ (mt :: post) 0) with mt. cbn [andb].
    destruct (cmem MATRAS mt) eqn:Hmt; [done|]. cbn [negb andb].
    by destruct (mt =? VIRAMA).
Qed.

(** Every value of the Conjuncts table ends in the inherent "a". *)
Lemma conjunct_values_end_in_a :
  forallb (fun kv => bool_decide (last (snd kv) = Some 0x61)) CONJUNCTS = true.
Proof. vm_compute. reflexivity. Qed.

(** ** Facts about the matcher *)

Module ReFacts.
Import Re.

Lemma reads_nil x : reads [] x x.
Proof. by split. Qed.

Lemma reads_app w1 w2 x y z :
  reads w1 x y -> reads w2 y z -> reads (w1 ++ w2) x z.
Proof.
  intros [A1 B1] [A2 B2]. split.
  - by rewrite A1, A2, app_assoc.
  - by rewrite B2, B1, rev_app_distr, app_assoc.
Qed.

Lemma reads_between w x y : reads w x y -> between x y = w.
Proof.
  intros [_ B]. unfold between. rewrite B, length_app, length_rev.
  replace (length w + length (before x) - length (before x))%nat
    with (length (rev w)) by (rewrite length_rev; lia).
  by rewrite take_app_length, rev_involutive.
Qed.

Lemma reads_length w x y :
  reads w x y -> length (after x) = (length w + length (after y))%nat.
Proof. intros [A _]. by rewrite A, length_app. Qed.

(** A property of pairs of positions that holds along every round of a
    repetition holds along the repetition. *)
Lemma rep_closure (R : pos -> pos -> Prop) (step : pos -> list pos) :
  (forall x, R x x) ->
  (forall x y z, R x y -> R y z -> R x z) ->
  (forall x y, In y (step x) -> R x y) ->
  forall fuel lo hi x y, In y (rep step fuel lo hi x) -> R x y.
Proof.
  intros Hrefl Htrans Hstep. induction fuel as [|fuel IH]; intros lo hi x y.
  - cbn. destruct hi as [[|h]|]; cbn; destruct lo; cbn; intuition (subst; auto).
  - cbn [rep]. rewrite in_app_iff. intros [Hin | Hin].
    + assert (Hmore : exists hi' z, In z (step x) /\
                In y (rep step fuel (pred lo) hi' z)).
      { destruct hi as [[|h]|]; [done| |];
          apply in_flat_map in Hin as (z & Hz & Hy);
          destruct (_ <? _)%nat; try done; eauto. }
      destruct Hmore as (hi' & z & Hz & Hy).
      eapply Htrans; [by apply Hstep | by eapply IH].
    + destruct lo; cbn in Hin; intuition (subst; auto).
Qed.

Lemma eat_reads lit bef aft b a g :
  eat lit bef aft = Some (b, a) -> reads lit (Pos bef aft g) (Pos b a g).
Proof.
  revert bef aft. induction lit as [|c lit IH]; intros bef aft; cbn.
  - intros [= <- <-]. by split.
  - destruct aft as [|d aft]; [done|].
    destruct (Z.eqb_spec c d) as [->|]; [|done]. intros E.
    destruct (IH _ _ E) as [A B]. cbn in *. split; cbn.
    + by rewrite A.
    + by rewrite B, <- app_assoc.
Qed.

(** Every result of the matcher is a position further in the subject. *)
Lemma m_reads r : forall x y, In y (m r x) -> exists w, reads w x y.
Proof.
  induction r as [s|p|r1 IH1 r2 IH2|r1 IH1 r2 IH2|r IH lo hi| | |r IH];
    intros x y; cbn [m].
  - destruct (eat s (before x) (after x)) as [[b a]|] eqn:E; [|done].
    intros [<-|[]]. exists s. destruct x as [bef aft g]. by apply eat_reads.
  - destruct (after x) as [|ch a] eqn:E; [done|].
    destruct (p ch); [|done]. intros [<-|[]]. exists [ch]. by split.
  - intros (z & Hz & Hy)%in_flat_map.
    destruct (IH1 _ _ Hz) as [w1 H1]. destruct (IH2 _ _ Hy) as [w2 H2].
    exists (w1 ++ w2). by eapply reads_app.
  - rewrite in_app_iff. intros [H|H]; eauto.
  - apply (rep_closure (fun x y => exists w, reads w x y)).
    + intros z. exists []. apply reads_nil.
    + intros a b c [w1 H1] [w2 H2]. exists (w1 ++ w2). by eapply reads_app.
    + exact IH.
  - destruct (before x); [|done]. intros [<-|[]]. exists []. apply reads_nil.
  - destruct (at_end (after x)); [|done].
    intros [<-|[]]. exists []. apply reads_nil.
  - intros (z & <- & Hz)%in_map_iff. destruct (IH _ _ Hz) as [w H].
    exists w. exact H.
Qed.

Lemma m_keeps_group r :
  has_group r = false -> forall x y, In y (m r x) -> group1 y = group1 x.
Proof.
  induction r as [s|p|r1 IH1 r2 IH2|r1 IH1 r2 IH2|r IH lo hi| | |r IH];
    cbn [m has_group]; intros Hg x y.
  - destruct (eat s (before x) (after x)) as [[b a]|]; [|done].
    by intros [<-|[]].
  - destruct (after x) as [|ch a]; [done|].
    destruct (p ch); [|done]. by intros [<-|[]].
  - apply orb_false_iff in Hg as [H1 H2].
    intros (z & Hz & Hy)%in_flat_map.
    by rewrite (IH2 H2 _ _ Hy), (IH1 H1 _ _ Hz).
  - apply orb_false_iff in Hg as [H1 H2].
    rewrite in_app_iff. intros [H|H]; eauto.
  - apply (rep_closure (fun x y => group1 y = group1 x)); [done| |by apply IH].
    intros a b c H1 H2. by rewrite H2.
  - destruct (before x); [|done]. by intros [<-|[]].
  - destruct (at_end (after x)); [|done]. by intros [<-|[]].
  - done.
Qed.

(** A repeated character class reads characters of the class, at least
    [lo] of them. *)
Lemma rep_cls_reads p fuel : forall lo hi x y,
  In y (rep (m (Cls p)) fuel lo hi x) ->
  exists w, reads w x y /\ forallb p w = true /\ (lo <= length w)%nat.
Proof.
  induction fuel as [|fuel IH]; intros lo hi x y.
  - cbn. destruct hi as [[|h]|]; cbn; destruct lo; cbn; try tauto;
      intros [<-|[]]; exists []; (split; [apply reads_nil | by split]).
  - cbn [rep]. rewrite in_app_iff. intros [Hin | Hin].
    + assert (Hmore : exists hi' z, In z (m (Cls p) x) /\
                In y (rep (m (Cls p)) fuel (pred lo) hi' z)).
      { destruct hi as [[|h]|]; [done| |];
          apply in_flat_map in Hin as (z & Hz & Hy);
          destruct (_ <? _)%nat; try done; eauto. }
      destruct Hmore as (hi' & z & Hz & Hy).
      destruct (IH _ _ _ _ Hy) as (w & Hw & Hp & Hlen).
      cbn in Hz. destruct (after x) as [|ch a] eqn:E; [done|].
      destruct (p ch) eqn:Hch; [|done]. destruct Hz as [<-|[]].
      exists (ch :: w). split; [|split].
      * apply (reads_app [ch] w x (Pos (ch :: before x) a (group1 x)));
          [by split | exact Hw].
      * cbn. by rewrite Hch, Hp.
      * cbn. lia.
    + destruct lo; [|done]. destruct Hin as [<-|[]].
      exists []. split; [apply reads_nil | by split].
Qed.

Lemma in_m_cat r1 r2 x y :
  In y (m (Cat r1 r2) x) <-> exists z, In z (m r1 x) /\ In y (m r2 z).
Proof. apply in_flat_map. Qed.

Lemma in_m_grp r x y :
  In y (m (Grp r) x) <->
  exists y0, Pos (before y0) (after y0) (Some (between x y0)) = y
             /\ In y0 (m r x).
Proof. apply in_map_iff. Qed.

Lemma m_rep r lo hi x :
  m (Rep r lo hi) x = rep (m r) (S (length (after x))) lo hi x.
Proof. reflexivity. Qed.

Lemma scan_hits r fuel : forall bef aft gap_rev,
  Forall (hit_of r) (fst (scan r fuel bef aft gap_rev)).
Proof.
  induction fuel as [|fuel IH]; intros bef aft gap_rev; cbn [scan];
    [constructor|].
  destruct (m r (Pos bef aft None)) as [|y rest] eqn:E.
  - destruct aft as [|ch aft]; [constructor | apply IH].
  - destruct (Nat.ltb_spec (length (after y)) (length aft)) as [Hlt|Hge].
    + specialize (IH (before y) (after y) []).
      destruct (scan r fuel (before y) (after y) []) as [hs tl].
      cbn [fst] in *.
      apply Forall_cons_2; [|exact IH].
      destruct (m_reads r (Pos bef aft None) y) as [w Hw];
        [rewrite E; by left|].
      exists (Pos bef aft None), y, rest, w.
      split; [exact E|]. split; [exact Hw|]. split; [|split; [|done]].
      * apply reads_length in Hw. cbn in Hw. intros ->. cbn in Hw. lia.
      * cbn. by apply reads_between.
    + destruct aft as [|ch aft]; [constructor | apply IH].
Qed.

(** A pattern that cannot match the empty string consumes something, so
    the progress tests of [rep] and [scan] never discard a match of the
    patterns of this file ([Pat.all_consume]). *)
Lemma m_no_longer r x y :
  In y (m r x) -> (length (after y) <= length (after x))%nat.
Proof.
  intros [w Hw%reads_length]%m_reads. lia.
Qed.

Lemma rep_progress step fuel lo hi x y :
  (forall a b, In b (step a) -> (length (after b) <= length (after a))%nat) ->
  (1 <= lo)%nat ->
  In y (rep step fuel lo hi x) ->
  (length (after y) < length (after x))%nat.
Proof.
  intros Hstep Hlo. destruct lo as [|lo]; [lia|].
  destruct fuel as [|fuel]; cbn [rep].
  - destruct hi as [[|h]|]; cbn; tauto.
  - rewrite app_nil_r. intros Hin.
    assert (Hmore : exists hi' z, In z (step x) /\
              (length (after z) < length (after x))%nat /\
              In y (rep step fuel lo hi' z)).
    { destruct hi as [[|h]|]; [done| |];
        apply in_flat_map in Hin as (z & Hz & Hy);
        destruct (Nat.ltb_spec (length (after z)) (length (after x)));
        try done; eauto 6. }
    destruct Hmore as (hi' & z & Hz & Hlt & Hy).
    enough (length (after y) <= length (after z))%nat by lia.
    revert Hy.
    apply (rep_closure
             (fun a b => (length (after b) <= length (after a))%nat));
      [lia | lia | exact Hstep].
Qed.

Lemma m_progress r :
  nullable r = false ->
  forall x y, In y (m r x) -> (length (after y) < length (after x))%nat.
Proof.
  induction r as [s|p|r1 IH1 r2 IH2|r1 IH1 r2 IH2|r IH lo hi| | |r IH];
    cbn [nullable]; intros Hn x y Hin.
  - destruct (m_reads _ _ _ Hin) as [w Hw].
    cbn [m] in Hin.
    destruct (eat s (before x) (after x)) as [[b a]|] eqn:E; [|done].
    destruct Hin as [<-|[]]. destruct x as [bef aft g]. cbn in *.
    apply (eat_reads _ _ _ _ _ g) in E. apply reads_length in E.
    cbn in E. destruct s; [done|]. cbn in E. lia.
  - cbn [m] in Hin. destruct (after x) as [|ch a]; [done|].
    destruct (p ch); [|done]. destruct Hin as [<-|[]]. cbn. lia.
  - apply in_m_cat in Hin as (z & Hz & Hy).
    pose proof (m_no_longer _ _ _ Hz). pose proof (m_no_longer _ _ _ Hy).
    apply andb_false_iff in Hn as [Hn|Hn].
    + specialize (IH1 Hn _ _ Hz). lia.
    + specialize (IH2 Hn _ _ Hy). lia.
  - apply orb_false_iff in Hn as [H1 H2]. cbn [m] in Hin.
    apply in_app_iff in Hin as [H|H]; eauto.
  - destruct lo as [|lo]; [done|]. rewrite m_rep in Hin.
    eapply rep_progress; [| |exact Hin]; [apply m_no_longer | lia].
  - done.
  - done.
  - apply in_m_grp in Hin as (y0 & <- & Hy0). cbn. by apply IH.
Qed.

(** The fuel of [rep] and of [scan] is never used up: more of it gives
    the same result. *)
Lemma rep_fuel step fuel : forall k lo hi x,
  (length (after x) < fuel)%nat ->
  rep step (fuel + k) lo hi x = rep step fuel lo hi x.
Proof.
  induction fuel as [|fuel IH]; intros k lo hi x Hfuel; [lia|].
  cbn [rep Nat.add]. f_equal.
  destruct hi as [[|h]|]; [done| |]; apply flat_map_ext; intros y;
    destruct (Nat.ltb_spec (length (after y)) (length (after x)));
    try done; apply IH; lia.
Qed.

Lemma scan_fuel r fuel : forall k bef aft gap_rev,
  (length aft < fuel)%nat ->
  scan r (fuel + k) bef aft gap_rev = scan r fuel bef aft gap_rev.
Proof.
  induction fuel as [|fuel IH]; intros k bef aft gap_rev Hfuel; [lia|].
  cbn [scan Nat.add].
  destruct (m r (Pos bef aft None)) as [|y rest].
  - destruct aft as [|ch aft]; [done|]. apply IH. cbn in Hfuel. lia.
  - destruct (Nat.ltb_spec (length (after y)) (length aft)).
    + rewrite IH by lia. done.
    + destruct aft as [|ch aft]; [done|]. apply IH. cbn in Hfuel. lia.
Qed.
End ReFacts.

(** ** Facts about the parser *)

Lemma py_int_numeric s : numeric s -> exists v, py_int s = Ok v.
Proof.
  intros [Hne Hd]. unfold py_int. destruct s as [|x s]; [done|].
  assert (H : is_Some (mapM decimal_value (x :: s))).
  { apply mapM_is_Some, Forall_forall. intros y Hy. unfold compose.
    rewrite forallb_forall in Hd. apply list_elem_of_In in Hy.
    specialize (Hd y Hy). unfold isdecimal in Hd.
    destruct (decimal_value y); [by eexists | done]. }
  destruct H as [ds ->]. eauto.
Qed.

Lemma py_int_value s : numeric s -> py_int s = Ok (default 0 (int_value s)).
Proof.
  intros H. destruct (py_int_numeric s H) as [v E].
  unfold int_value. by rewrite E.
Qed.

Module ParserFacts.
Import Re ReFacts.

(** No scanned pattern matches the empty string, and every repeated
    sub-pattern consumes something. *)
Lemma scanned_not_nullable :
  forallb (fun r => negb (nullable r)) Pat.scanned = true.
Proof. vm_compute. reflexivity. Qed.

Lemma all_consume : forallb reps_consume Pat.all = true.
Proof. vm_compute. reflexivity. Qed.

Lemma digits_numeric fuel lo hi x y :
  (1 <= lo)%nat -> In y (rep (m digit) fuel lo hi x) ->
  numeric (between x y).
Proof.
  intros Hlo Hin. apply rep_cls_reads in Hin as (w & Hw & Hp & Hlen).
  rewrite (reads_between _ _ _ Hw). split; [|done].
  intros ->. cbn in Hlen. lia.
Qed.

(** Group 1 of a match of the serial-number pattern. *)
Lemma serial_group x y :
  In y (m Pat.serial x) -> exists g, group1 y = Some g /\ numeric g.
Proof.
  unfold Pat.serial, seq. cbn [fold_right].
  intros (y1 & _ & Hy)%in_m_cat.
  apply in_m_cat in Hy as (y2 & Hy2 & Hy).
  apply m_keeps_group in Hy as ->; [|reflexivity].
  apply in_m_grp in Hy2 as (y0 & <- & Hy0). rewrite m_rep in Hy0.
  eexists. split; [reflexivity|].
  by eapply digits_numeric.
Qed.

Lemma serial_nums_numeric line :
  Forall numeric (findall_group Pat.serial line).
Proof.
  unfold findall_group, scan_text. apply Forall_map.
  eapply Forall_impl; [apply scan_hits|].
  intros h (x & y & rest & w & E & _ & _ & _ & Hg & _). cbn.
  destruct (serial_group x y) as (g & Hy & Hnum); [rewrite E; by left|].
  by rewrite Hg, Hy.
Qed.

Lemma voter_ids_nonempty line :
  Forall (fun v => v <> []) (findall Pat.voter_id line).
Proof.
  unfold findall, scan_text. apply Forall_map.
  eapply Forall_impl; [apply scan_hits|].
  intros h (x & y & rest & w & _ & _ & Hne & Hw & _). cbn. by rewrite Hw.
Qed.

Lemma search_from_first r : forall aft bef x y,
  search_from r bef aft = Some (x, y) -> exists rest, m r x = y :: rest.
Proof.
  induction aft as [|ch aft IH]; intros bef x y; cbn [search_from].
  - destruct (m r (Pos bef [] None)) as [|z rest] eqn:E; [done|].
    intros [= <- <-]. eauto.
  - destruct (m r (Pos bef (ch :: aft) None)) as [|z rest] eqn:E.
    + apply IH.
    + intros [= <- <-]. eauto.
Qed.

(** Reading the age of a part never raises. *)
Lemma age_of_ok part : exists a, age_of part = Ok a.
Proof.
  unfold age_of.
  destruct (search Pat.age_number part) as [[x y]|] eqn:E; cbn.
  - apply search_from_first in E as [rest E].
    assert (Hy : In y (m Pat.age_number x)) by (rewrite E; by left).
    unfold Pat.age_number in Hy.
    apply in_m_grp in Hy as (y0 & <- & Hy0). rewrite m_rep in Hy0.
    cbn [group1].
    destruct (py_int_numeric (between x y0)) as [v ->].
    { eapply digits_numeric; [|exact Hy0]. lia. }
    cbn. case_match; eauto.
  - eauto.
Qed.

Lemma age_of_value part : age_of part = Ok (age_value part).
Proof.
  destruct (age_of_ok part) as [a E]. unfold age_value. by rewrite E.
Qed.

(** The age kept for a part is 0 or lies between 18 and 120. *)
Lemma age_value_range part v :
  age_value part = Some v -> v = 0 \/ 18 <= v <= 120.
Proof.
  unfold age_value, age_of.
  destruct (search Pat.age_number part) as [[x y]|]; cbn; [|done].
  destruct (group1 y) as [g|]; cbn; [|done].
  destruct (py_int g) as [w| |]; cbn; [|done|done].
  destruct (negb (w =? 0) && ((w <? 18) || (w >? 120))) eqn:Hgate; cbn;
    [done|].
  intros [= <-]. lia.
Qed.

Lemma ages_genders_of_ok parts :
  ages_genders_of parts
  = Ok (map (fun part => (age_value part, gender_of part)) parts).
Proof.
  unfold ages_genders_of. induction parts as [|part parts IH]; [done|].
  cbn [mapM map]. rewrite age_of_value. cbn. by rewrite IH.
Qed.
End ParserFacts.

Section BuildFacts.
Variables (voter_ids serial_nums names rel_names houses : list str).
Variable relation_types : list relation_value.
Variable ages : list (option Z).
Variable genders : list gender_value.

Local Abbreviation vat :=
  (voter_at voter_ids serial_nums names rel_names houses relation_types
            ages genders).
Local Abbreviation make :=
  (make_voter voter_ids serial_nums names rel_names houses relation_types
              ages genders).
Local Abbreviation build :=
  (build_voters voter_ids serial_nums names rel_names houses relation_types
                ages genders).

Lemma make_voter_ok idx v : make idx = Ok v -> v = vat idx.
Proof.
  unfold make_voter, voter_at.
  destruct (serial_nums !! idx) as [s|]; cbn.
  - unfold int_value. destruct (py_int s) as [w| |]; cbn; [|done|done].
    by intros [= <-].
  - by intros [= <-].
Qed.

Lemma make_voter_numeric idx :
  Forall numeric serial_nums -> make idx = Ok (vat idx).
Proof.
  intros Hnum. unfold make_voter, voter_at.
  destruct (serial_nums !! idx) as [s|] eqn:E; cbn; [|done].
  assert (Hs : numeric s).
  { rewrite Forall_forall in Hnum. apply Hnum.
    by eapply list_elem_of_lookup_2. }
  destruct (py_int_numeric s Hs) as [v Hv].
  unfold int_value. by rewrite Hv.
Qed.

Lemma build_voters_ok idxs : forall voters out,
  build idxs voters = Ok out ->
  out = voters ++ List.filter kept (map vat idxs).
Proof.
  induction idxs as [|idx idxs IH]; intros voters out; cbn.
  - intros [= <-]. by rewrite app_nil_r.
  - destruct (make idx) as [v| |] eqn:E; cbn; [|done|done].
    apply make_voter_ok in E as ->. intros H.
    apply IH in H as ->. unfold kept. cbn [voter_id voter_at].
    destruct (truthy (upper <$> voter_ids !! idx)); [|done].
    by rewrite <- app_assoc.
Qed.

Lemma build_voters_numeric idxs : forall voters,
  Forall numeric serial_nums ->
  build idxs voters = Ok (voters ++ List.filter kept (map vat idxs)).
Proof.
  induction idxs as [|idx idxs IH]; intros voters Hnum; cbn.
  - by rewrite app_nil_r.
  - rewrite make_voter_numeric by done. cbn [mbind outcome_bind].
    rewrite IH by done. unfold kept. cbn [voter_id voter_at].
    destruct (truthy (upper <$> voter_ids !! idx)); [|done].
    by rewrite <- app_assoc.
Qed.
End BuildFacts.

Lemma lookup_map {A B} (f : A -> B) (l : list A) (k : nat) :
  map f l !! k = f <$> l !! k.
Proof.
  revert k. induction l as [|x l IH]; intros [|k]; cbn; auto.
Qed.

(** The columns of a block, and the record of each index. *)
Section Block.
Variable block_text : str.
Variables voter_ids serial_nums : list str.

Local Abbreviation a := (field_lines_of block_text).
Local Abbreviation parts := (age_gender_parts_of a).
Local Abbreviation records := (block_records block_text voter_ids serial_nums).
Local Abbreviation record_at :=
  (block_voter_at block_text voter_ids serial_nums).

Lemma parse_voter_block_unfold :
  parse_voter_block block_text voter_ids serial_nums
  = build_voters voter_ids serial_nums (names_of a) (rel_names_of a)
      (houses_of a) (relation_types_of a) (map age_value parts)
      (map gender_of parts) (seq 0 (length voter_ids)) [].
Proof.
  unfold parse_voter_block.
  rewrite ParserFacts.ages_genders_of_ok. cbn [mbind outcome_bind].
  by rewrite !map_map, (map_ext _ age_value), (map_ext _ gender_of).
Qed.

Lemma parse_voter_block_ok out :
  parse_voter_block block_text voter_ids serial_nums = Ok out ->
  out = records.
Proof.
  rewrite parse_voter_block_unfold. intros H.
  by apply build_voters_ok in H.
Qed.

Lemma parse_voter_block_numeric :
  Forall numeric serial_nums ->
  parse_voter_block block_text voter_ids serial_nums = Ok records.
Proof.
  intros H. rewrite parse_voter_block_unfold.
  by rewrite build_voters_numeric.
Qed.

Lemma block_records_length : (length records <= length voter_ids)%nat.
Proof.
  unfold block_records.
  etransitivity; [apply List.filter_length_le|].
  by rewrite length_map, length_seq.
Qed.

Lemma block_records_kept : Forall (fun r => kept r = true) records.
Proof.
  apply Forall_forall. intros r Hr. apply list_elem_of_In in Hr.
  unfold block_records in Hr. by apply filter_In in Hr as [_ ?].
Qed.

(** Every record of the block is the record of some index. *)
Lemma block_records_index r :
  In r records ->
  exists idx, (idx < length voter_ids)%nat /\ r = record_at idx.
Proof.
  unfold block_records. intros [Hin _]%filter_In.
  apply in_map_iff in Hin as (idx & <- & Hidx).
  apply in_seq in Hidx. exists idx. split; [lia | done].
Qed.

(** When no identifier is empty, no index is dropped. *)
Lemma block_records_all :
  Forall (fun v => v <> []) voter_ids ->
  records = map record_at (seq 0 (length voter_ids)).
Proof.
  intros Hids. unfold block_records.
  apply forallb_filter_id, forallb_forall. intros r Hr.
  apply in_map_iff in Hr as (idx & <- & Hidx). apply in_seq in Hidx.
  unfold kept, block_voter_at, voter_at. cbn [voter_id].
  destruct (lookup_lt_is_Some_2 voter_ids idx) as [v Hv]; [lia|].
  rewrite Hv. cbn.
  assert (Hne : v <> []).
  { rewrite Forall_forall in Hids. apply Hids.
    by eapply list_elem_of_lookup_2. }
  destruct v; done.
Qed.

Lemma block_records_lookup k :
  Forall (fun v => v <> []) voter_ids ->
  (k < length voter_ids)%nat ->
  records !! k = Some (record_at k).
Proof.
  intros Hids Hk. rewrite block_records_all by done.
  rewrite lookup_map. by rewrite lookup_seq_lt.
Qed.
End Block.

(** What [parse_ocr_text] passes to [parse_voter_block] for a row: the
    identifiers and serial numbers found on its first line. No index is
    dropped and no serial number fails to read. *)
Lemma parse_voter_block_of_line line block_text :
  let voter_ids := Re.findall Pat.voter_id line in
  let serial_nums := Re.findall_group Pat.serial line in
  parse_voter_block block_text voter_ids serial_nums
  = Ok (map (block_voter_at block_text voter_ids serial_nums)
            (seq 0 (length voter_ids))).
Proof.
  intros voter_ids serial_nums.
  rewrite parse_voter_block_numeric by apply ParserFacts.serial_nums_numeric.
  f_equal. apply block_records_all, ParserFacts.voter_ids_nonempty.
Qed.

(** The loops of [parse_ocr_text] end and do not raise. *)
Section LoopFacts.
Variable lines : list str.

Lemma collect_block_ok fuel : forall j block_lines,
  (length lines - j < fuel)%nat ->
  exists j' block_lines',
    collect_block lines fuel j block_lines = Ok (j', block_lines')
    /\ (j <= j')%nat.
Proof.
  induction fuel as [|fuel IH]; intros j block_lines Hfuel; [lia|].
  cbn [collect_block]. case_bool_decide as Hj; [|eauto].
  destruct (lookup_lt_is_Some_2 lines j Hj) as [next_line ->].
  destruct (ends_block next_line); [eauto|].
  destruct (is_photo_line next_line).
  - destruct (IH (S j) block_lines) as (j' & bl & E & Hle); [lia|].
    exists j', bl. split; [done | lia].
  - destruct (IH (S j) (block_lines ++ [next_line])) as (j' & bl & E & Hle);
      [lia|].
    exists j', bl. split; [done | lia].
Qed.

Lemma ocr_loop_ok fuel : forall i voters,
  (length lines - i < fuel)%nat ->
  exists out, ocr_loop lines fuel i voters = Ok out.
Proof.
  induction fuel as [|fuel IH]; intros i voters Hfuel; [lia|].
  cbn [ocr_loop]. case_bool_decide as Hi; [|eauto].
  destruct (lookup_lt_is_Some_2 lines i Hi) as [line ->].
  destruct (Re.findall Pat.voter_id line) as [|v vs] eqn:Eids.
  - apply IH. lia.
  - destruct (collect_block_ok (S (length lines)) (S i) [line])
      as (j & bl & -> & Hle); [lia|].
    cbn [mbind outcome_bind].
    rewrite parse_voter_block_numeric
      by apply ParserFacts.serial_nums_numeric.
    cbn [mbind outcome_bind]. apply IH. lia.
Qed.
End LoopFacts.

(** ** The transliterator against its specification *)

(** C1 (the code departs from the specification). A conjunct followed by a
    dependent vowel sign is emitted as the whole table value of the
    conjunct, inherent "a" included, followed by the sound of the sign:
    the word "ക്കി" (conjunct "ക്ക" = "kka", sign U+0D3F = "i") gives "kkai",
    title-cased "Kkai", and not "kki" ([conjunct3_step] gives the step at
    every such conjunct). A single consonant before the same sign gives
    consonant plus sign sound: "കി" gives "Ki". *)
Theorem C1_conjunct_matra_keeps_inherent_a :
  sget CONJUNCTS (u "ക്ക") = Some (u "kka") /\
  cget MATRAS 0x0D3F = Some (u "i") /\
  u "ക്കി" = u "ക്ക" ++ [0x0D3F] /\
  tw_chars (u "ക്കി") = u "kkai" /\
  transliterate_to_english (u "ക്കി") = u "Kkai" /\
  transliterate_to_english (u "കി") = u "Ki".
Proof. vm_compute. repeat split; reflexivity. Qed.

(** C2 (the code departs from the specification). The longer key "ന്ദ്ര"
    of the Conjuncts table, mapped to "ndra", is never looked up: the scan
    tries keys of three code points only ([conjunct3_step] is what it does
    at those). The word "ന്ദ്ര" is read as the conjunct "ന്ദ" = "nda"
    followed by a silenced mark and a final "ര" = "r", which gives "ndar",
    title-cased "Ndar". *)
Theorem C2_long_conjunct_key_unused :
  sget CONJUNCTS (u "ന്ദ്ര") = Some (u "ndra") /\
  sget CONJUNCTS (u "ന്ദ") = Some (u "nda") /\
  tw_chars (u "ന്ദ്ര") = u "ndar" /\
  transliterate_to_english (u "ന്ദ്ര") = u "Ndar".
Proof. vm_compute. repeat split; reflexivity. Qed.

(** C3 (the code departs from the specification). The key "എല്‍സ" of
    KnownNames, written with U+200D after its second letter and mapped to
    "Elsa", can never match: joiners are removed from the text before the
    table is consulted, and only trailing marks are stripped from the
    keys. The cascade then gives "Els". Every other key of the table gives
    its mapped value. *)
Theorem C3_known_name_with_inner_joiner :
  sget KNOWN_NAMES ELSA_WITH_JOINER = Some (u "Elsa") /\
  transliterate_to_english ELSA_WITH_JOINER = u "Els" /\
  Forall (fun kv => fst kv <> ELSA_WITH_JOINER ->
                    transliterate_to_english (fst kv) = snd kv) KNOWN_NAMES.
Proof.
  split; [by vm_compute|]. split; [by vm_compute|].
  assert (H : forallb (fun kv => str_eqb (fst kv) ELSA_WITH_JOINER
                        || str_eqb (transliterate_to_english (fst kv)) (snd kv))
                KNOWN_NAMES = true) by (vm_compute; reflexivity).
  rewrite forallb_forall in H. apply Forall_forall. intros kv Hin Hne.
  apply list_elem_of_In in Hin. specialize (H kv Hin).
  apply orb_true_iff in H as [H|H]; unfold str_eqb in H.
  - by apply bool_decide_eq_true in H.
  - by apply bool_decide_eq_true in H.
Qed.

(** C8, as stated, fails on a padded string: the text is stripped before
    the fast path, so " a" comes back as "a". *)
Lemma C8_padded_input_is_changed :
  forallb plain_char (u " a") = true /\
  transliterate_to_english (u " a") <> u " a".
Proof. split; [by vm_compute|]. vm_compute. discriminate. Qed.

(** C8 (amended). For a string of ASCII letters, spaces, hyphens, slashes
    and periods the transliterator returns the string with its leading and
    trailing whitespace stripped, without entering the cascade; applying
    it again changes nothing. *)
Theorem C8_fast_path_strips_and_is_idempotent (s : str) :
  forallb plain_char s = true ->
  transliterate_to_english s = strip s /\
  transliterate_to_english (transliterate_to_english s)
  = transliterate_to_english s.
Proof.
  intros Hs. pose proof (fast_path_plain s Hs) as E. split; [exact E|].
  rewrite E. rewrite fast_path_plain; [apply strip_idem|].
  rewrite forallb_forall in *. intros x Hx. by apply Hs, strip_elem.
Qed.

Lemma C8_fast_path_witness :
  transliterate_to_english (u " A-b c/d. ") = strip (u " A-b c/d. ") /\
  transliterate_to_english (transliterate_to_english (u " A-b c/d. "))
  = transliterate_to_english (u " A-b c/d. ").
Proof. apply C8_fast_path_strips_and_is_idempotent. reflexivity. Defined.

(** The text is stripped before anything else is done with it, so the
    result is the same for a string and for the string without its
    leading and trailing whitespace. *)
Lemma transliterate_strip s :
  transliterate_to_english s = transliterate_to_english (strip s).
Proof.
  unfold transliterate_to_english, clean_text. rewrite strip_idem.
  destruct s as [|x s]; [done|].
  destruct (strip (x :: s)) as [|y t] eqn:E; [done|].
  assert (E' : strip (y :: t) = y :: t) by (by rewrite <- E, strip_idem).
  by rewrite E'.
Qed.

(** The word path always returns a string without leading or trailing
    whitespace: the words are split at whitespace and joined again. *)
Lemma word_path_trimmed s :
  trimmed (join (u " ") (flat_map translit_one (split_ws (clean_text s)))).
Proof.
  apply join_words_trimmed, Forall_flat_map.
  eapply Forall_impl; [apply (split_ws_from_words []); constructor|].
  intros w [_ Hw]. by apply translit_one_words.
Qed.

(** The result has no leading or trailing whitespace exactly when the
    ASCII fast path is not taken, or the text left after the strip and
    the removal of the joiners has none. *)
Lemma transliterate_trimmed_iff s :
  trimmed (transliterate_to_english s)
  <-> forallb (fun x => isascii x || char_in x (u " /-.")) (clean_text s)
      = false
      \/ trimmed (clean_text s).
Proof.
  unfold transliterate_to_english.
  destruct s as [|x s]; [by split; [right|]|].
  destruct (strip (x :: s)) as [|y t] eqn:E.
  { split; [intros _; right|done]. unfold clean_text. by rewrite E. }
  case_match.
  - split; [by right|]. by intros [?|?].
  - split; [by left|]. intros _. apply word_path_trimmed.
Qed.

(** C10. The returned string can begin with whitespace. The text is
    stripped first and the joiners are removed afterwards; a joiner in
    front of a space shields the space from the strip, and the ASCII fast
    path returns what is left as it is: for U+200D followed by " a" the
    result is " a". The word path trims in the same situation: for U+200D
    followed by " കി" the result is "Ki". *)
Theorem C10_joiner_then_space_keeps_space :
  transliterate_to_english (ZWJ :: u " a") = u " a" /\
  ~ trimmed (transliterate_to_english (ZWJ :: u " a")) /\
  transliterate_to_english (ZWJ :: u " കി") = u "Ki" /\
  trimmed (transliterate_to_english (ZWJ :: u " കി")).
Proof.
  split_and!.
  - by vm_compute.
  - intros [H _]. vm_compute in H. discriminate.
  - by vm_compute.
  - apply transliterate_trimmed_iff. left. by vm_compute.
Qed.

(** ** The parser against its specification *)

Lemma numericb_list l : forallb numericb l = true -> Forall numeric l.
Proof.
  rewrite forallb_forall. intros H. apply Forall_forall. intros s Hs.
  apply list_elem_of_In in Hs. specialize (H s Hs).
  apply andb_true_iff in H as [H1 H2]. split; [|done].
  intros ->. done.
Qed.

Lemma nonempty_list (l : list str) :
  forallb (fun v => negb (str_eqb v [])) l = true ->
  Forall (fun v => v <> []) l.
Proof.
  rewrite forallb_forall. intros H. apply Forall_forall. intros s Hs.
  apply list_elem_of_In in Hs. specialize (H s Hs). intros ->. done.
Qed.

(** C4 (the code departs from the specification). An age that reads as 0
    is kept: the range test is guarded by the truth value of the number,
    and 0 is false. The page with the row "1 AB123456" and the line
    "പ്രായം : 00" gives one record whose age is 0. Ages 17 and 121 become
    null, ages 18 and 120 are kept ([ParserFacts.age_value_range]: a kept
    age is 0 or lies between 18 and 120). *)
Theorem C4_age_zero_is_kept :
  (exists r, parse_ocr_text AGE_ZERO_PAGE = Ok [r] /\ age r = Some 0) /\
  age_of (u "00") = Ok (Some 0) /\
  age_of (u "17") = Ok None /\ age_of (u "121") = Ok None /\
  age_of (u "18") = Ok (Some 18) /\ age_of (u "120") = Ok (Some 120).
Proof.
  split; [|by vm_compute].
  eexists. split; [vm_compute; reflexivity | reflexivity].
Qed.

(** C5. With readable serial numbers and no empty identifier, a block
    gives one record per identifier, in order, and record [k] holds the
    [k]-th identifier (upper-cased) and the [k]-th element of each column,
    or null (for the relation: the default) where the column is shorter;
    names have their trailing noise stripped. *)
Theorem C5_positional_alignment
    (block_text : str) (voter_ids serial_nums : list str) :
  Forall numeric serial_nums ->
  Forall (fun v => v <> []) voter_ids ->
  let a := field_lines_of block_text in
  exists recs,
    parse_voter_block block_text voter_ids serial_nums = Ok recs /\
    length recs = length voter_ids /\
    forall k, (k < length voter_ids)%nat ->
      exists r, recs !! k = Some r /\
        voter_id r = upper <$> voter_ids !! k /\
        serial_no r = serial_nums !! k ≫= int_value /\
        name_ml r = clean_name (names_of a !! k) /\
        relative_name_ml r = clean_relative_name (rel_names_of a !! k) /\
        relation_type r = default Father (relation_types_of a !! k) /\
        house_number r = houses_of a !! k /\
        age r = age_gender_parts_of a !! k ≫= age_value /\
        gender r = gender_of <$> age_gender_parts_of a !! k.
Proof.
  intros Hnum Hids a. exists (block_records block_text voter_ids serial_nums).
  split; [by apply parse_voter_block_numeric|]. split.
  - rewrite block_records_all by done. by rewrite length_map, length_seq.
  - intros k Hk. exists (block_voter_at block_text voter_ids serial_nums k).
    split; [by apply block_records_lookup|].
    unfold block_voter_at, voter_at. cbn.
    rewrite !lookup_map. fold a.
    repeat split. by destruct (age_gender_parts_of a !! k).
Qed.

Lemma C5_positional_alignment_witness :
  exists recs,
    parse_voter_block ALIGN_BLOCK ALIGN_IDS ALIGN_SERIALS = Ok recs /\
    length recs = 3%nat.
Proof.
  destruct (C5_positional_alignment ALIGN_BLOCK ALIGN_IDS ALIGN_SERIALS)
    as (recs & E & Hlen & _).
  - apply numericb_list. reflexivity.
  - apply nonempty_list. reflexivity.
  - exists recs. split; [exact E | exact Hlen].
Defined.

(** The records of the example, field by field. *)
Example align_block_records :
  parse_voter_block ALIGN_BLOCK ALIGN_IDS ALIGN_SERIALS
  = Ok [ Voter (Some 1) (Some (u "AB123451")) (Some (u "N1")) None None None
               Father (Some (u "H1")) None None;
         Voter (Some 2) (Some (u "AB123452")) (Some (u "N2")) None None None
               Father None None None;
         Voter (Some 3) (Some (u "AB123453")) None None None None
               Father None None None ].
Proof. vm_compute. reflexivity. Qed.

(** C6. With readable serial numbers a block gives at most as many
    records as it has identifiers, and every record has an identifier that
    is neither null nor empty. *)
Theorem C6_records_bounded_by_identifiers
    (block_text : str) (voter_ids serial_nums : list str) :
  Forall numeric serial_nums ->
  exists recs,
    parse_voter_block block_text voter_ids serial_nums = Ok recs /\
    (length recs <= length voter_ids)%nat /\
    Forall (fun r => exists v, voter_id r = Some v /\ v <> []) recs.
Proof.
  intros Hnum. exists (block_records block_text voter_ids serial_nums).
  split; [by apply parse_voter_block_numeric|].
  split; [apply block_records_length|].
  eapply Forall_impl; [apply block_records_kept|].
  intros r Hr. unfold kept, truthy in Hr.
  destruct (voter_id r) as [[|x v]|]; [done| |done]. by exists (x :: v).
Qed.

Lemma C6_records_bounded_witness :
  exists recs,
    parse_voter_block ALIGN_BLOCK (u "" :: ALIGN_IDS) ALIGN_SERIALS = Ok recs /\
    (length recs <= 4)%nat /\
    Forall (fun r => exists v, voter_id r = Some v /\ v <> []) recs.
Proof.
  apply (C6_records_bounded_by_identifiers ALIGN_BLOCK (u "" :: ALIGN_IDS)).
  apply numericb_list. reflexivity.
Defined.

(** C7, as stated, fails for a block without an age line: the record's
    gender is null, neither Male nor Female. *)
Lemma C7_no_age_line_gives_null_gender :
  exists r, parse_ocr_text (u "1 AB123456") = Ok [r] /\ gender r = None.
Proof. eexists. split; [vm_compute; reflexivity | reflexivity]. Qed.

(** C7 (amended). Every record of a block is the record of one of the
    block's identifiers, and its gender is read from the age/gender
    segment of the same index: Female when the segment holds a feminine
    marker, Male when it holds none, and null when the block has no
    segment of that index. *)
Theorem C7_gender_from_segment
    (block_text : str) (voter_ids serial_nums : list str) :
  Forall numeric serial_nums ->
  exists recs,
    parse_voter_block block_text voter_ids serial_nums = Ok recs /\
    Forall (fun r => exists idx,
              (idx < length voter_ids)%nat /\
              voter_id r = upper <$> voter_ids !! idx /\
              gender r =
                match age_gender_parts_of (field_lines_of block_text) !! idx with
                | Some part =>
                    Some (if has_feminine_marker part then Female else Male)
                | None => None
                end) recs.
Proof.
  intros Hnum. exists (block_records block_text voter_ids serial_nums).
  split; [by apply parse_voter_block_numeric|].
  apply Forall_forall. intros r Hr. apply list_elem_of_In in Hr.
  apply block_records_index in Hr as (idx & Hidx & ->).
  exists idx. split; [done|]. split; [done|].
  unfold block_voter_at, voter_at. cbn [gender]. rewrite lookup_map.
  by destruct (_ !! idx).
Qed.

Lemma C7_gender_from_segment_witness :
  exists recs,
    parse_voter_block GENDER_BLOCK [u "AB123451"; u "AB123452"] [u "1"; u "2"]
    = Ok recs /\ length recs = 2%nat.
Proof.
  destruct (C7_gender_from_segment GENDER_BLOCK
              [u "AB123451"; u "AB123452"] [u "1"; u "2"])
    as (recs & E & _).
  - apply numericb_list. reflexivity.
  - exists recs. split; [exact E|].
    vm_compute in E. by injection E as <-.
Defined.

Example gender_block_records :
  (fun recs => map gender recs)
    (block_records GENDER_BLOCK [u "AB123451"; u "AB123452"] [u "1"; u "2"])
  = [Some Female; None].
Proof. vm_compute. reflexivity. Qed.

(** C9. The parser is total: on every page text it returns a list of
    records; it raises nothing and its loops end. *)
Theorem C9_parse_total (text : str) :
  exists voters, parse_ocr_text text = Ok voters.
Proof.
  unfold parse_ocr_text.
  destruct (strip_nonempty (split_char 10 (strip text))) as [|l ls] eqn:E;
    [eauto|].
  apply ocr_loop_ok. lia.
Qed.
